(** * aocutils: slices, stacks, grids and sibling/child trees

    A shallow embedding of [aocutils.go].  Go slices are modelled as slice
    headers (backing array, offset, length, capacity) over a store of backing
    arrays, so that the aliasing between a slice and the slices cut from it
    is the one the Go program has.  Run-time panics are results of the
    computation, and the store at the moment of the panic is kept. *)

From stdpp Require Import base numbers option list gmap strings.
From Stdlib Require Import ZArith Lia ZifyBool.

Local Open Scope Z_scope.

(** ** Go's [int]: 64-bit two's complement *)

Definition max_int : Z := 2 ^ 63 - 1.
Definition min_int : Z := - 2 ^ 63.

(** The value of an arithmetic result once it is stored in an [int]. *)
Definition wrap (z : Z) : Z := (z + 2 ^ 63) `mod` 2 ^ 64 - 2 ^ 63.

Definition int_add (a b : Z) : Z := wrap (a + b).
Definition int_sub (a b : Z) : Z := wrap (a - b).

(** ** The zero value of a type ([*new(T)]) and the allocator's growth policy *)

Class ZeroValue (T : Type) := zero_value : T.

(** [append] allocates "a new, sufficiently large underlying array"; how
    large is left to the run time.  [growcap oldCap newLen] is the run time's
    proposal; the model takes it within the bounds every run time keeps: at
    least [newLen] elements, and a capacity that is an [int]. *)
Class GrowPolicy := growcap : Z → Z → Z.

(** In [element, s := s[i], s[lo:hi]] the language does not fix which
    operand is evaluated first: index and slice expressions are not among
    the operations it orders.  [slice_first] is the compiler's choice; the
    gc compiler evaluates the slice expression first. *)
Class OperandOrder := slice_first : bool.

(** ** Run-time panics *)

Inductive runtime_error :=
  | index_out_of_range          (* s[i] with i outside [0, len(s)) *)
  | slice_bounds_out_of_range   (* s[lo:hi] outside 0 <= lo <= hi <= cap(s) *)
  | len_out_of_range            (* growslice: the new length overflows int *)
  | invalid_memory.             (* a header that points outside the store *)

Inductive result (A : Type) :=
  | Ok (a : A)
  | Panic (e : runtime_error).
Arguments Ok {A} a.
Arguments Panic {A} e.

(** ** Slice headers and the store of backing arrays *)

Record slice_header := SliceHeader { arr : nat; off : Z; len : Z; cap : Z }.

(** Backing arrays are never freed; an array is named by its position in
    the store. *)
Abbreviation store T := (list (list T)).

Section Store.
Context {T : Type}.

(** Computations read and write the store and may panic. *)
Definition M (A : Type) : Type := store T → result A * store T.

Definition ret {A} (a : A) : M A := λ st, (Ok a, st).
Definition panic {A} (e : runtime_error) : M A := λ st, (Panic e, st).
Definition bind {A B} (m : M A) (k : A → M B) : M B :=
  λ st, match m st with
        | (Ok a, st') => k a st'
        | (Panic e, st') => (Panic e, st')
        end.

Definition read_array (id : nat) : M (list T) :=
  λ st, match st !! id with
        | Some a => (Ok a, st)
        | None => (Panic invalid_memory, st)
        end.

Definition write_array (id : nat) (a : list T) : M unit :=
  λ st, (Ok tt, <[id := a]> st).

Definition alloc (a : list T) : M nat :=
  λ st, (Ok (length st), st ++ [a]).

(** The elements seen through a header: [s[0], ..., s[len(s)-1]]. *)
Definition contents (st : store T) (s : slice_header) : list T :=
  match st !! arr s with
  | Some a => take (Z.to_nat (len s)) (drop (Z.to_nat (off s)) a)
  | None => []
  end.

(** A header of a running program: it lies inside its backing array and its
    capacity is an [int]. *)
Definition slice_wf (st : store T) (s : slice_header) : Prop :=
  ∃ a, st !! arr s = Some a
       ∧ 0 ≤ off s ∧ 0 ≤ len s ≤ cap s ∧ cap s ≤ max_int
       ∧ off s + cap s ≤ Z.of_nat (length a).
End Store.

Arguments M T A : clear implicits.

#[global] Instance M_ret {T} : MRet (M T) := @ret T.
#[global] Instance M_bind {T} : MBind (M T) := λ A B k m, bind m k.

(** ** Slice primitives of the language *)

Section Primitives.
Context {T : Type} `{!ZeroValue T} `{!GrowPolicy} `{!OperandOrder}.

(** [s[lo:hi]]: the run time checks [0 <= lo <= hi <= cap(s)]. *)
Definition slice_expr (s : slice_header) (lo hi : Z) : M T slice_header :=
  if (0 <=? lo) && (lo <=? hi) && (hi <=? cap s)
  then mret (SliceHeader (arr s) (off s + lo) (hi - lo) (cap s - lo))
  else panic slice_bounds_out_of_range.

(** [s[lo:]]: the upper bound defaults to [len(s)]. *)
Definition slice_from (s : slice_header) (lo : Z) : M T slice_header :=
  slice_expr s lo (len s).

(** [s[:hi]]: the lower bound defaults to 0. *)
Definition slice_to (s : slice_header) (hi : Z) : M T slice_header :=
  slice_expr s 0 hi.

(** [s[i]] as a value. *)
Definition index_get (s : slice_header) (i : Z) : M T T :=
  if (0 <=? i) && (i <? len s) then
    a ← read_array (arr s);
    match a !! Z.to_nat (off s + i) with
    | Some v => mret v
    | None => panic invalid_memory
    end
  else panic index_out_of_range.

(** [s[i] = v]. *)
Definition index_set (s : slice_header) (i : Z) (v : T) : M T unit :=
  if (0 <=? i) && (i <? len s) then
    a ← read_array (arr s);
    write_array (arr s) (<[Z.to_nat (off s + i) := v]> a)
  else panic index_out_of_range.

(** [s...]: the elements of [s], read at the call. *)
Definition elements (s : slice_header) : M T (list T) :=
  λ st, (Ok (contents st s), st).

(** [copy(dst, src)] copies [min(len(dst), len(src))] elements and returns
    that number; the source is read before the destination is written, so
    overlapping slices are handled as by memmove. *)
Definition copy (dst src : slice_header) : M T Z :=
  let n := Z.min (len dst) (len src) in
  from ← read_array (arr src);
  let vals := take (Z.to_nat n) (drop (Z.to_nat (off src)) from) in
  to ← read_array (arr dst);
  write_array (arr dst) (list_inserts (Z.to_nat (off dst)) vals to);;
  mret n.

(** [append(s, vs...)]: within capacity the values are written behind
    [s]'s last element, in [s]'s own backing array; otherwise a new array
    is allocated and [s]'s elements are copied to it. *)
Definition append (s : slice_header) (vs : list T) : M T slice_header :=
  let newLen := int_add (len s) (Z.of_nat (length vs)) in
  if newLen <? 0 then panic len_out_of_range
  else if newLen <=? cap s then
    a ← read_array (arr s);
    write_array (arr s) (list_inserts (Z.to_nat (off s + len s)) vs a);;
    mret (SliceHeader (arr s) (off s) newLen (cap s))
  else
    old ← elements s;
    let newcap := Z.max newLen (Z.min max_int (growcap (cap s) newLen)) in
    id ← alloc (old ++ vs ++ replicate (Z.to_nat (newcap - newLen)) zero_value);
    mret (SliceHeader id 0 newLen newcap).

(** [[]T{v1, ..., vn}]: a fresh array holding exactly the listed values. *)
Definition slice_literal (vs : list T) : M T slice_header :=
  id ← alloc vs;
  mret (SliceHeader id 0 (Z.of_nat (length vs)) (Z.of_nat (length vs))).

(** [for k := k0; k < n; k++ { body }]: the body runs at [k0, ..., n-1] in
    turn ([k++] cannot overflow below [n]); a panic ends the loop. *)
Fixpoint for_each (body : Z → M T unit) (ks : list Z) : M T unit :=
  match ks with
  | [] => mret tt
  | k :: ks' => body k;; for_each body ks'
  end.

Definition for_lt (k0 n : Z) (body : Z → M T unit) : M T unit :=
  for_each body (seqZ k0 (n - k0)).

(** ** Array utilities (aocutils.go, lines 132-158) *)

Definition Cut (slice : slice_header) (start end_ : Z) : M T slice_header :=
  dst ← slice_from slice start;
  src ← slice_from slice end_;
  copy dst src;;
  for_lt (int_add (int_sub (len slice) end_) start) (len slice)
         (λ k, index_set slice k zero_value);;
  slice_to slice (int_add (int_sub (len slice) end_) start).

Definition Delete (slice : slice_header) (index : Z) : M T slice_header :=
  dst ← slice_from slice index;
  src ← slice_from slice (int_add index 1);
  copy dst src;;
  index_set slice (int_sub (len slice) 1) zero_value;;
  slice_to slice (int_sub (len slice) 1).

Definition Insert (slice : slice_header) (element : T) (index : Z)
  : M T slice_header :=
  slice ← append slice [zero_value];
  dst ← slice_from slice (int_add index 1);
  src ← slice_from slice index;
  copy dst src;;
  index_set slice index element;;
  mret slice.

(** ** Stack (aocutils.go, lines 160-185)

    [type Stack[T any] []T]; every method has a value receiver: it works on
    its own copy [s] of the caller's header, and an assignment to [s] is an
    assignment to that copy.  What the caller still holds after the call is
    the header it passed, over the store the call left. *)

Definition Stack := slice_header.

(** The two operands of [element, s := a, b], [a] an index expression and
    [b] a slice expression, in the order [slice_first] gives; the first
    panic is the statement's. *)
Definition operands {A B} (a : M T A) (b : M T B) : M T (A * B) :=
  if slice_first
  then y ← b; x ← a; mret (x, y)
  else x ← a; y ← b; mret (x, y).

Definition Push (s : Stack) (element : T) : M T unit :=
  s ← append s [element];
  mret tt.

Definition Pop (s : Stack) : M T T :=
  '(element, s) ← operands (index_get s (int_sub (len s) 1))
                           (slice_to s (int_sub (len s) 1));
  mret element.

Definition Unshift (s : Stack) (element : T) : M T unit :=
  lit ← slice_literal [element];
  vs ← elements s;
  s ← append lit vs;
  mret tt.

Definition Shift (s : Stack) : M T T :=
  '(element, s) ← operands (index_get s 0) (slice_from s 1);
  mret element.

End Primitives.

(** ** Grid utilities (aocutils.go, lines 187-200) *)

#[global] Instance result_ret : MRet result := @Ok.
#[global] Instance result_bind : MBind result :=
  λ A B k m, match m with Ok a => k a | Panic e => Panic e end.

(** [a && b]: [b] is evaluated only when [a] is true. *)
Definition and_then (a b : result bool) : result bool :=
  va ← a; if va : bool then b else Ok false.

Module GridUtils.

Definition Grid (T : Type) := list (list T).

Record Coordinate := { x : Z; y : Z }.

(** [grid[i]] on the outer slice. *)
Definition row {T} (grid : Grid T) (i : Z) : result (list T) :=
  if (0 <=? i) && (i <? Z.of_nat (length grid)) then
    match grid !! Z.to_nat i with
    | Some r => Ok r
    | None => Panic invalid_memory
    end
  else Panic index_out_of_range.

Definition InBounds {T} (grid : Grid T) (coord : Coordinate) : result bool :=
  and_then
    (and_then
       (and_then (Ok (0 <? y coord)) (Ok (0 <? x coord)))
       (Ok (y coord <? Z.of_nat (length grid))))
    (r ← row grid 0; Ok (x coord <? Z.of_nat (length r))).

End GridUtils.

(** ** Trees (aocutils.go, lines 202-227) *)

(** A [*TreeNode[T]] is nil or the address of a node. *)
Definition ptr := option nat.

Record TreeNode (T : Type) := mkTreeNode {
  element : T;
  firstChild : ptr;
  nextSibling : ptr;
}.
Arguments mkTreeNode {T} _ _ _.
Arguments element {T} _.
Arguments firstChild {T} _.
Arguments nextSibling {T} _.

(** The nodes that pointers point to. *)
Abbreviation heap T := (gmap nat (TreeNode T)).

Section GetNodes.
Context {T : Type}.

(** The method has a value receiver and returns node values.  The slices
    it builds are its own, so they are plain sequences here.  The recursion
    follows pointers; [fuel] bounds its depth, and [None] is the call that
    has not returned within it. *)
Fixpoint GetNodes (fuel : nat) (h : heap T) (t : TreeNode T)
  : option (list (TreeNode T)) :=
  match fuel with
  | O => None
  | S fuel =>
    let nodes := [] in
    let nodes := nodes ++ [t] in
    nodes ← match nextSibling t with
            | Some p => n ← h !! p; ns ← GetNodes fuel h n; Some (nodes ++ ns)
            | None => Some nodes
            end;
    nodes ← match firstChild t with
            | Some p => n ← h !! p; ns ← GetNodes fuel h n; Some (nodes ++ ns)
            | None => Some nodes
            end;
    Some nodes
  end.

(** [GetNodes] on [t] returns [nodes]: every call with enough fuel does. *)
Definition returns (h : heap T) (t : TreeNode T) (nodes : list (TreeNode T))
  : Prop :=
  ∃ fuel0, ∀ fuel, (fuel0 ≤ fuel)%nat → GetNodes fuel h t = Some nodes.

(** What a link contributes: nothing when it is nil, else what [GetNodes]
    returns on the node it points to. *)
Definition link_returns (h : heap T) (l : ptr) (nodes : list (TreeNode T))
  : Prop :=
  match l with
  | None => nodes = []
  | Some p => ∃ n, h !! p = Some n ∧ returns h n nodes
  end.

(** The links below a pointer form a tree: every pointer leads to a node,
    and following links ends (no cycle). *)
Inductive tree_link (h : heap T) : ptr → Prop :=
  | tree_nil : tree_link h None
  | tree_node p n :
      h !! p = Some n →
      tree_link h (nextSibling n) →
      tree_link h (firstChild n) →
      tree_link h (Some p).

End GetNodes.

(** ** Properties stated about panics *)

(** The two run-time errors of an index or a slice bound out of range. *)
Definition bounds_error (e : runtime_error) : Prop :=
  e = index_out_of_range ∨ e = slice_bounds_out_of_range.

(** The panic of [Pop] and [Shift] on an empty stack: that of the operand
    evaluated first. *)
Definition empty_stack_panic `{!OperandOrder} : runtime_error :=
  if slice_first then slice_bounds_out_of_range else index_out_of_range.

(** The elements of the slice a call returned, in the store it left. *)
Definition returned_elements {T} (out : result slice_header * store T)
  : result (list T) :=
  match out with
  | (Ok r, st) => Ok (contents st r)
  | (Panic e, _) => Panic e
  end.

(** ** Concrete inputs *)

(** [int]'s zero value, and a run time that doubles capacities. *)
#[local] Instance int_zero : ZeroValue Z := 0.
#[local] Instance doubling : GrowPolicy := λ oldCap newLen, 2 * oldCap.

(** The operand order of the gc compiler. *)
#[local] Instance gc_order : OperandOrder := true.

(** [[]int{1, 2, 3}]: three elements, no spare capacity. *)
Definition store123 : store Z := [[1; 2; 3]].
Definition slice123 : slice_header := SliceHeader 0 0 3 3.

(** [make([]int, 3, 5)] filled with 1, 2, 3: two spare places. *)
Definition store123_spare : store Z := [[1; 2; 3; 0; 0]].
Definition slice123_spare : slice_header := SliceHeader 0 0 3 5.

(** [[]int{1, 2, 3, 4, 5}]. *)
Definition store12345 : store Z := [[1; 2; 3; 4; 5]].
Definition slice12345 : slice_header := SliceHeader 0 0 5 5.

(** [Stack[int]{1, 2}] and the empty [Stack[int]{}]. *)
Definition store12 : store Z := [[1; 2]].
Definition stack12 : Stack := SliceHeader 0 0 2 2.
Definition store_empty : store Z := [[]].
Definition stack_empty : Stack := SliceHeader 0 0 0 0.

(** A grid of 3 rows of 4 columns. *)
Definition grid3x4 : GridUtils.Grid Z :=
  [[11; 12; 13; 14]; [21; 22; 23; 24]; [31; 32; 33; 34]].
Definition at_xy (x y : Z) : GridUtils.Coordinate :=
  {| GridUtils.x := x; GridUtils.y := y |}.

(** Root R with children A and B, where A has the child C:
    [R.firstChild = &A], [A.nextSibling = &B], [A.firstChild = &C]. *)
Definition node_C : TreeNode string := mkTreeNode "C" None None.
Definition node_B : TreeNode string := mkTreeNode "B" None None.
Definition node_A : TreeNode string := mkTreeNode "A" (Some 3%nat) (Some 2%nat).
Definition node_R : TreeNode string := mkTreeNode "R" (Some 1%nat) None.
Definition heap_RABC : heap string :=
  {[ 1%nat := node_A; 2%nat := node_B; 3%nat := node_C ]}.

(** ** Math (aocutils.go, lines 104-127) *)

Definition int_neg (a : Z) : Z := wrap (- a).
Definition int_mul (a b : Z) : Z := wrap (a * b).

Definition Abs (x : Z) : Z := if x <? 0 then int_neg x else x.

Fixpoint Pow_loop (fuel : nat) (n m i result : Z) : option Z :=
  match fuel with
  | O => None
  | S fuel =>
    if i <=? m
    then Pow_loop fuel n m (int_add i 1) (int_mul result n)
    else Some result
  end.

Definition Pow (fuel : nat) (n m : Z) : option Z :=
  if m =? 0 then Some 1
  else if m =? 1 then Some n
  else Pow_loop fuel n m 2 n.

(** ** Shapes of grids and trees *)

(** A grid all of whose rows have the length of row 0 ("the grid is
    assumed to be square"). *)
Definition rectangular {T} (grid : GridUtils.Grid T) : Prop :=
  ∀ r, r ∈ grid → length r = length (default [] (head grid)).

(** A tree as a value: the node's element, the tree of its first child and
    the tree of its next sibling; [no_node] for a nil link. *)
Inductive shape (T : Type) : Type :=
  | no_node
  | node (e : T) (children siblings : shape T).
Arguments no_node {T}.
Arguments node {T} e children siblings.

(** The link [l] leads, in the heap [h], to the nodes of the tree [t]. *)
Fixpoint represents {T} (h : heap T) (l : ptr) (t : shape T) : Prop :=
  match t with
  | no_node => l = None
  | node e children siblings =>
      ∃ p n, l = Some p ∧ h !! p = Some n ∧ element n = e
             ∧ represents h (firstChild n) children
             ∧ represents h (nextSibling n) siblings
  end.

(** The elements of a tree: the node's, then its siblings', then its
    children's. *)
Fixpoint sibling_first {T} (t : shape T) : list T :=
  match t with
  | no_node => []
  | node e children siblings =>
      e :: sibling_first siblings ++ sibling_first children
  end.

(** ** More concrete inputs *)

(** A node that is its own next sibling. *)
Definition node_L : TreeNode string := mkTreeNode "L" None (Some 1%nat).
Definition heap_loop : heap string := {[ 1%nat := node_L ]}.

(** The trees below R's links: R has no sibling; its first child is A, with
    the child C and the sibling B. *)
Definition shape_ABC : shape string :=
  node "A" (node "C" no_node no_node) (node "B" no_node no_node).

(** * Proofs *)

(** ** Arithmetic of [int] and list look-ups *)

Lemma wrap_small z : min_int ≤ z ≤ max_int → wrap z = z.
Proof.
  unfold wrap, min_int, max_int. intros H.
  rewrite Z.mod_small by lia. lia.
Qed.

Lemma wrap_overflow z : max_int < z ≤ 2 * max_int + 1 → wrap z = z - 2 ^ 64.
Proof.
  unfold wrap, max_int. intros H.
  replace (z + 2 ^ 63) with ((z - 2 ^ 63) + 1 * 2 ^ 64) by lia.
  rewrite Z.mod_add by lia. rewrite Z.mod_small by lia. lia.
Qed.

Lemma lookup_cons_at_0 {A} (x : A) (l : list A) (i : nat) :
  i = 0%nat → (x :: l) !! i = Some x.
Proof. by intros ->. Qed.

Lemma lookup_insert_at {A} (l : list A) (i j : nat) (x : A) :
  i = j → (j < length l)%nat → <[i:=x]> l !! j = Some x.
Proof. intros ->. apply list_lookup_insert_eq. Qed.

Ltac len_solve :=
  rewrite ?length_app, ?length_take, ?length_drop, ?length_inserts,
    ?length_insert, ?length_replicate, ?length_cons; cbn [length]; lia.

Ltac lookup_step :=
  first
    [ rewrite lookup_drop
    | rewrite lookup_take_lt by len_solve
    | rewrite lookup_take_ge by len_solve
    | rewrite lookup_app_l by len_solve
    | rewrite lookup_app_r by len_solve
    | rewrite list_lookup_inserts by len_solve
    | rewrite list_lookup_inserts_lt by len_solve
    | rewrite list_lookup_inserts_ge by len_solve
    | rewrite list_lookup_insert_ne by lia
    | rewrite lookup_insert_at by len_solve
    | rewrite lookup_cons_at_0 by len_solve
    | rewrite lookup_cons_ne_0 by len_solve
    | rewrite lookup_replicate_2 by lia
    | rewrite lookup_ge_None_2 by len_solve ].

Ltac lookup_solve :=
  repeat lookup_step; rewrite ?length_app, ?length_take, ?length_drop;
  try done; try (f_equal; lia).

Section SliceFacts.
Context {T : Type} `{!ZeroValue T} `{!GrowPolicy} `{!OperandOrder}.
Implicit Types (s dst src : slice_header) (st : store T) (a b : list T).

Lemma run_bind {A B} (m : M T A) (k : A → M T B) st :
  (m ≫= k) st = match m st with
                | (Ok x, st') => k x st'
                | (Panic e, st') => (Panic e, st')
                end.
Proof. reflexivity. Qed.

Lemma run_ret {A} (x : A) st : (mret x : M T A) st = (Ok x, st).
Proof. reflexivity. Qed.

Lemma slice_expr_ok s lo hi st :
  0 ≤ lo ≤ hi → hi ≤ cap s →
  slice_expr s lo hi st
  = (Ok (SliceHeader (arr s) (off s + lo) (hi - lo) (cap s - lo)), st).
Proof.
  intros Hlo Hhi. unfold slice_expr.
  replace ((0 <=? lo) && (lo <=? hi) && (hi <=? cap s)) with true by lia.
  reflexivity.
Qed.

Lemma slice_expr_panic s lo hi st :
  lo < 0 ∨ hi < lo ∨ cap s < hi →
  slice_expr s lo hi st = (Panic slice_bounds_out_of_range, st).
Proof.
  intros Hbad. unfold slice_expr.
  replace ((0 <=? lo) && (lo <=? hi) && (hi <=? cap s)) with false by lia.
  reflexivity.
Qed.

Lemma index_set_ok s i v st a :
  st !! arr s = Some a → 0 ≤ i < len s →
  index_set s i v st
  = (Ok tt, <[arr s := <[Z.to_nat (off s + i) := v]> a]> st).
Proof.
  intros Ha Hi. unfold index_set.
  replace ((0 <=? i) && (i <? len s)) with true by lia.
  rewrite run_bind. unfold read_array. rewrite Ha. reflexivity.
Qed.

Lemma index_set_panic s i v st :
  i < 0 ∨ len s ≤ i → index_set s i v st = (Panic index_out_of_range, st).
Proof.
  intros Hi. unfold index_set.
  replace ((0 <=? i) && (i <? len s)) with false by lia.
  reflexivity.
Qed.

Lemma index_get_panic s i st :
  i < 0 ∨ len s ≤ i → index_get s i st = (Panic index_out_of_range, st).
Proof.
  intros Hi. unfold index_get.
  replace ((0 <=? i) && (i <? len s)) with false by lia.
  reflexivity.
Qed.

Lemma copy_ok dst src st a b :
  st !! arr src = Some a → st !! arr dst = Some b →
  copy dst src st
  = (Ok (Z.min (len dst) (len src)),
     <[arr dst := list_inserts (Z.to_nat (off dst))
                    (take (Z.to_nat (Z.min (len dst) (len src)))
                          (drop (Z.to_nat (off src)) a)) b]> st).
Proof.
  intros Ha Hb. unfold copy. rewrite run_bind. unfold read_array at 1.
  rewrite Ha. rewrite run_bind. unfold read_array. rewrite Hb.
  reflexivity.
Qed.

Lemma store_update_twice st id a b :
  <[id := b]> (<[id := a]> st) = <[id := b]> st.
Proof. apply list_insert_insert_eq. Qed.

Lemma store_lookup_update st id a b :
  st !! id = Some a → <[id := b]> st !! id = Some b.
Proof. intros Ha. apply list_lookup_insert_eq. by eapply lookup_lt_Some. Qed.

Lemma for_each_index_set s ks st a :
  st !! arr s = Some a →
  Forall (λ k, 0 ≤ k < len s) ks →
  ∃ a', for_each (λ k, index_set s k zero_value) ks st
        = (Ok tt, <[arr s := a']> st)
        ∧ length a' = length a
        ∧ ∀ j, Forall (λ k, j ≠ Z.to_nat (off s + k)) ks → a' !! j = a !! j.
Proof.
  intros Ha Hks. revert st a Ha.
  induction Hks as [|k ks Hk Hks IH]; intros st a Ha.
  - exists a. split_and!; [|done..].
    by rewrite list_insert_id.
  - cbn [for_each]. rewrite run_bind, (index_set_ok _ _ _ _ a) by done.
    destruct (IH (<[arr s := <[Z.to_nat (off s + k) := zero_value]> a]> st)
                 (<[Z.to_nat (off s + k) := zero_value]> a))
      as (a' & Hrun & Hlen & Hsame).
    { by eapply store_lookup_update. }
    exists a'. rewrite Hrun, store_update_twice.
    split_and!; [done| by rewrite Hlen, length_insert |].
    intros j Hj. inversion_clear Hj as [|?? Hne Hrest].
    rewrite Hsame by done. by apply list_lookup_insert_ne.
Qed.

Lemma Cut_spec s start end_ st :
  slice_wf st s →
  0 ≤ start ≤ end_ → end_ ≤ len s →
  ∃ st' r,
    Cut s start end_ st = (Ok r, st')
    ∧ len r = len s - (end_ - start)
    ∧ contents st' r
      = take (Z.to_nat start) (contents st s)
        ++ drop (Z.to_nat end_) (contents st s).
Proof.
  intros (a & Ha & Hoff & Hlen & Hcap & Hfit) Hse Hend.
  unfold Cut, slice_from, slice_to, for_lt, int_add, int_sub.
  rewrite (wrap_small (len s - end_)) by (unfold min_int, max_int in *; lia).
  rewrite (wrap_small (len s - end_ + start))
    by (unfold min_int, max_int in *; lia).
  rewrite run_bind, slice_expr_ok by lia.
  rewrite run_bind, slice_expr_ok by lia.
  rewrite run_bind, (copy_ok _ _ _ a a) by done.
  cbn [arr off len cap].
  set (a1 := list_inserts _ _ a).
  destruct (for_each_index_set s
              (seqZ (len s - end_ + start) (len s - (len s - end_ + start)))
              (<[arr s := a1]> st) a1) as (a2 & Hrun & Hlen2 & Hsame).
  { by eapply store_lookup_update. }
  { apply Forall_seqZ. lia. }
  rewrite run_bind, Hrun, store_update_twice.
  rewrite slice_expr_ok by lia.
  eexists _, _. split_and!; [done| cbn; lia |].
  unfold contents. cbn [arr off len cap].
  rewrite (store_lookup_update _ _ a) by done. rewrite Ha.
  apply list_eq. intros i.
  destruct (decide (i < Z.to_nat start)%nat) as [Hi|Hi];
    [|destruct (decide (i < Z.to_nat (len s - end_ + start))%nat) as [Hi'|Hi']].
  - rewrite lookup_take_lt, lookup_drop by lia.
    rewrite Hsame by (apply Forall_seqZ; lia). subst a1.
    lookup_solve.
  - rewrite lookup_take_lt, lookup_drop by lia.
    rewrite Hsame by (apply Forall_seqZ; lia). subst a1.
    lookup_solve.
  - lookup_solve.
Qed.

Lemma contents_length st s :
  slice_wf st s → Z.of_nat (length (contents st s)) = len s.
Proof.
  intros (a & Ha & Hoff & Hlen & Hcap & Hfit). unfold contents.
  rewrite Ha, length_take, length_drop. lia.
Qed.

Lemma contents_alloc st s new :
  (arr s < length st)%nat → contents (st ++ [new]) s = contents st s.
Proof. intros Hid. unfold contents. by rewrite lookup_app_l. Qed.

Lemma contents_fresh st new n c :
  contents (st ++ [new]) (SliceHeader (length st) 0 n c)
  = take (Z.to_nat n) new.
Proof.
  unfold contents. cbn [arr off len]. by rewrite list_lookup_middle.
Qed.

Lemma contents_update_other st id a' r :
  arr r ≠ id → contents (<[id := a']> st) r = contents st r.
Proof. intros Hne. unfold contents. by rewrite list_lookup_insert_ne. Qed.

Lemma append_spec s vs st :
  slice_wf st s →
  len s + Z.of_nat (length vs) ≤ max_int →
  ∃ st' r,
    append s vs st = (Ok r, st')
    ∧ slice_wf st' r
    ∧ len r = len s + Z.of_nat (length vs)
    ∧ contents st' r = contents st s ++ vs
    ∧ contents st' s = contents st s
    ∧ ∀ r', (arr r' < length st)%nat → arr r' ≠ arr s →
            contents st' r' = contents st r'.
Proof.
  intros Hwf Hmax. pose proof (contents_length _ _ Hwf) as Hclen.
  destruct Hwf as (a & Ha & Hoff & Hlen & Hcap & Hfit).
  unfold append, int_add.
  rewrite wrap_small by (unfold min_int, max_int in *; lia).
  replace (len s + Z.of_nat (length vs) <? 0) with false by lia.
  destruct (len s + Z.of_nat (length vs) <=? cap s) eqn:Hroom.
  - rewrite run_bind. unfold read_array. rewrite Ha. cbn [write_array].
    rewrite run_bind. cbn [write_array].
    eexists _, _. split; [reflexivity|].
    unfold slice_wf, contents. cbn [arr off len cap].
    rewrite (store_lookup_update _ _ a) by done. rewrite Ha.
    split_and!.
    + eexists. split_and!; [done|lia..|len_solve].
    + done.
    + apply list_eq. intros i.
      destruct (decide (i < Z.to_nat (len s))%nat);
        [|destruct (decide (i < Z.to_nat (len s) + length vs)%nat)];
        lookup_solve.
    + apply list_eq. intros i.
      destruct (decide (i < Z.to_nat (len s))%nat); lookup_solve.
    + intros r' _ Hne. by apply contents_update_other.
  - rewrite run_bind. unfold elements. rewrite run_bind. unfold alloc.
    eexists _, _. split; [reflexivity|].
    assert (arr s < length st)%nat as Hid by (by eapply lookup_lt_Some).
    rewrite contents_fresh, contents_alloc by done.
    split_and!.
    + eexists. cbn [arr off len cap].
      split_and!; [by apply list_lookup_middle|lia..|].
      rewrite !length_app, length_replicate. lia.
    + done.
    + rewrite app_assoc. apply take_app_length'. len_solve.
    + done.
    + intros r' Hr' _. by apply contents_alloc.
Qed.

Lemma contents_update st s r a a' :
  st !! arr s = Some a → arr r = arr s →
  contents (<[arr s := a']> st) r
  = take (Z.to_nat (len r)) (drop (Z.to_nat (off r)) a').
Proof.
  intros Ha Hr. unfold contents.
  by rewrite Hr, (store_lookup_update _ _ a).
Qed.

Lemma slice_wf_update st s a a' :
  st !! arr s = Some a → length a' = length a →
  slice_wf st s → slice_wf (<[arr s := a']> st) s.
Proof.
  intros Ha Hlen (a0 & Ha0 & Hs). exists a'.
  rewrite (store_lookup_update _ _ a) by done.
  split; [done|]. rewrite Hlen. congruence.
Qed.

Lemma Delete_spec s index st :
  slice_wf st s →
  0 ≤ index < len s →
  ∃ st' r,
    Delete s index st = (Ok r, st')
    ∧ len r = len s - 1
    ∧ contents st' r
      = take (Z.to_nat index) (contents st s)
        ++ drop (Z.to_nat (index + 1)) (contents st s).
Proof.
  intros (a & Ha & Hoff & Hlen & Hcap & Hfit) Hindex.
  unfold Delete, slice_from, slice_to, int_add, int_sub.
  rewrite !wrap_small by (unfold min_int, max_int in *; lia).
  rewrite run_bind, slice_expr_ok by lia.
  rewrite run_bind, slice_expr_ok by lia.
  rewrite run_bind, (copy_ok _ _ _ a a) by done.
  cbn [arr off len cap]. set (a1 := list_inserts _ _ a).
  rewrite run_bind, (index_set_ok _ _ _ _ a1)
    by first [by eapply store_lookup_update | lia].
  rewrite store_update_twice, slice_expr_ok by lia.
  eexists _, _. split_and!; [done|cbn; lia|].
  rewrite (contents_update _ _ _ a) by done.
  unfold contents. rewrite Ha. cbn [arr off len cap]. subst a1.
  apply list_eq. intros i.
  destruct (decide (i < Z.to_nat index)%nat);
    [|destruct (decide (i < Z.to_nat (len s - 1))%nat)]; lookup_solve.
Qed.

Lemma Insert_spec s element index st :
  slice_wf st s →
  0 ≤ index ≤ len s →
  len s < max_int →
  ∃ st' r,
    Insert s element index st = (Ok r, st')
    ∧ slice_wf st' r
    ∧ len r = len s + 1
    ∧ contents st' r
      = take (Z.to_nat index) (contents st s)
        ++ element :: drop (Z.to_nat index) (contents st s).
Proof.
  intros Hwf Hindex Hmax. pose proof (contents_length _ _ Hwf) as Hclen.
  destruct (append_spec s [zero_value] st Hwf)
    as (st1 & s1 & Happ & Hwf1 & Hlen1 & Hc1 & _ & _); [cbn; lia|].
  cbn [length] in Hlen1.
  unfold Insert. rewrite run_bind, Happ.
  pose proof Hwf1 as (a1 & Ha1 & Hoff & Hlen & Hcap & Hfit).
  unfold slice_from, int_add.
  rewrite !wrap_small by (unfold min_int, max_int in *; lia).
  rewrite run_bind, slice_expr_ok by lia.
  rewrite run_bind, slice_expr_ok by lia.
  rewrite run_bind, (copy_ok _ _ _ a1 a1) by done.
  cbn [arr off len cap]. set (a2 := list_inserts _ _ a1).
  rewrite run_bind, (index_set_ok _ _ _ _ a2)
    by first [by eapply store_lookup_update | lia].
  rewrite store_update_twice.
  eexists _, _. split_and!; [done| |done|].
  { apply (slice_wf_update _ _ a1); [done| |done].
    subst a2. by rewrite length_insert, length_inserts. }
  rewrite (contents_update _ _ _ a1) by done.
  assert (take (Z.to_nat index) (contents st s)
          = take (Z.to_nat index) (contents st1 s1)) as ->.
  { rewrite Hc1. symmetry. apply take_app_le. lia. }
  assert (drop (Z.to_nat index) (contents st s)
          = take (Z.to_nat (len s - index))
              (drop (Z.to_nat index) (contents st1 s1))) as ->.
  { rewrite Hc1, drop_app_le by lia. symmetry. apply take_app_length'.
    rewrite length_drop. lia. }
  unfold contents. rewrite Ha1. subst a2.
  apply list_eq. intros i.
  destruct (decide (i < Z.to_nat index)%nat);
    [|destruct (decide (i = Z.to_nat index)%nat);
      [|destruct (decide (i < Z.to_nat (len s1))%nat)]].
  - lookup_solve.
  - lookup_solve.
  - lookup_solve.
  - lookup_solve.
Qed.

(** C5: for [0 <= index <= len(s)], [Delete(Insert(s, e, index), index)]
    returns a slice with the elements of [s].  ([len(s) < max_int]: the
    inserted slice has one element more, and a length is an [int].) *)
Theorem Delete_Insert_identity s element index st :
  slice_wf st s →
  0 ≤ index ≤ len s →
  len s < max_int →
  ∃ st' r,
    (inserted ← Insert s element index; Delete inserted index) st
    = (Ok r, st')
    ∧ contents st' r = contents st s.
Proof.
  intros Hwf Hindex Hmax. pose proof (contents_length _ _ Hwf) as Hclen.
  destruct (Insert_spec s element index st Hwf Hindex Hmax)
    as (st1 & s1 & Hins & Hwf1 & Hlen1 & Hc1).
  destruct (Delete_spec s1 index st1 Hwf1) as (st2 & s2 & Hdel & _ & Hc2);
    [lia|].
  exists st2, s2. rewrite run_bind, Hins. split; [done|].
  rewrite Hc2, Hc1.
  rewrite take_app_length' by len_solve.
  rewrite cons_middle, app_assoc, drop_app_length' by len_solve.
  apply take_drop.
Qed.

(** C7: on a stack with zero elements [Pop] and [Shift] fail with a bounds
    panic, that of the operand evaluated first: the slice expression
    ([s[:len(s)-1]], [s[1:]]) as the gc compiler orders them, else the index
    expression ([s[len(s)-1]], [s[0]]).  Whatever the order, no value is
    returned and the store is as it was. *)
Theorem Pop_Shift_empty_panic s st :
  len s = 0 →
  Pop s st = (Panic empty_stack_panic, st)
  ∧ Shift s st = (Panic empty_stack_panic, st)
  ∧ bounds_error empty_stack_panic.
Proof.
  intros Hempty. unfold Pop, Shift, operands, empty_stack_panic, int_sub.
  rewrite Hempty, wrap_small by (unfold min_int, max_int; lia).
  unfold slice_to, slice_from, bounds_error.
  destruct slice_first.
  - rewrite !run_bind, !slice_expr_panic by lia. auto.
  - rewrite !run_bind, !index_get_panic by lia. auto.
Qed.

Lemma Cut_panic_bounds s start end_ st :
  start < 0 ∨ len s < start ∨ end_ < 0 ∨ len s < end_ →
  Cut s start end_ st = (Panic slice_bounds_out_of_range, st).
Proof.
  intros Hbad. unfold Cut, slice_from. rewrite run_bind.
  destruct (decide (0 ≤ start ≤ len s ∧ len s ≤ cap s)) as [Hstart|Hstart].
  - rewrite slice_expr_ok by lia.
    rewrite run_bind, slice_expr_panic by lia. done.
  - rewrite slice_expr_panic by lia. done.
Qed.

Lemma Cut_reversed s start end_ st :
  slice_wf st s →
  0 ≤ end_ < start → start ≤ len s →
  if decide (len s - end_ + start ≤ cap s)
  then ∃ st', Cut s start end_ st
              = (Ok (SliceHeader (arr s) (off s) (len s - end_ + start)
                                 (cap s)), st')
  else ∃ e st', Cut s start end_ st = (Panic e, st') ∧ bounds_error e.
Proof.
  intros (a & Ha & Hoff & Hlen & Hcap & Hfit) Hes Hstart.
  unfold Cut, slice_from, slice_to, for_lt, int_add, int_sub.
  rewrite (wrap_small (len s - end_)) by (unfold min_int, max_int in *; lia).
  rewrite run_bind, slice_expr_ok by lia.
  rewrite run_bind, slice_expr_ok by lia.
  rewrite run_bind, (copy_ok _ _ _ a a) by done.
  cbn [arr off len cap]. set (a1 := list_inserts _ _ a).
  destruct (decide (len s - end_ + start ≤ max_int)) as [Hfits|Hover].
  - rewrite wrap_small by (unfold min_int, max_int in *; lia).
    rewrite seqZ_nil by lia. rewrite run_bind. cbn [for_each].
    rewrite run_ret. case_decide as Hroom.
    + rewrite slice_expr_ok by lia. eexists. do 3 f_equal; lia.
    + rewrite slice_expr_panic by lia.
      eexists _, _. split; [done|by right].
  - rewrite decide_False by lia.
    rewrite wrap_overflow by (unfold max_int in *; lia).
    rewrite seqZ_cons by (unfold max_int in *; lia).
    rewrite run_bind. cbn [for_each].
    rewrite run_bind, index_set_panic by (unfold max_int in *; lia).
    eexists _, _. split; [done|by left].
Qed.

(** C4: for [0 <= start <= end <= len(s)], [Cut(s, start, end)] returns a
    slice of length [len(s) - (end - start)] whose elements are those of
    [s] before [start] followed by those from [end] on: every element
    outside [start, end) is kept, in its order. *)
Theorem Cut_removes_range s start end_ st :
  slice_wf st s →
  0 ≤ start ≤ end_ → end_ ≤ len s →
  ∃ st' r,
    Cut s start end_ st = (Ok r, st')
    ∧ len r = len s - (end_ - start)
    ∧ contents st' r
      = take (Z.to_nat start) (contents st s)
        ++ drop (Z.to_nat end_) (contents st s).
Proof. apply Cut_spec. Qed.

(** C8, amended: [Cut(s, start, end)] fails with a bounds panic exactly
    when an index is negative or greater than [len(s)], or when the length
    it cuts to, [len(s) - end + start], exceeds [cap(s)].  With
    [end < start <= len(s)] and that much capacity it does not fail: it
    returns the slice of [s]'s array of length [len(s) - end + start]. *)
Theorem Cut_fails_iff s start end_ st :
  slice_wf st s →
  ((∃ e st', Cut s start end_ st = (Panic e, st') ∧ bounds_error e)
   ↔ (start < 0 ∨ len s < start ∨ end_ < 0 ∨ len s < end_
      ∨ cap s < len s - end_ + start))
  ∧ (0 ≤ end_ < start → start ≤ len s → len s - end_ + start ≤ cap s →
     ∃ st', Cut s start end_ st
            = (Ok (SliceHeader (arr s) (off s) (len s - end_ + start)
                               (cap s)), st')).
Proof.
  intros Hwf. pose proof Hwf as (a & Ha & Hoff & Hlen & Hcap & Hfit).
  split.
  - destruct (decide (start < 0 ∨ len s < start ∨ end_ < 0 ∨ len s < end_))
      as [Hbad|Hgood].
    { split; [intros _; lia|]. intros _.
      rewrite Cut_panic_bounds by done.
      eexists _, _. split; [done|by right]. }
    destruct (decide (start ≤ end_)) as [Hle|Hgt].
    + destruct (Cut_spec s start end_ st Hwf) as (st' & r & Hrun & _);
        [lia..|].
      rewrite Hrun. split; [|lia]. by intros (e & st'' & [=] & _).
    + pose proof (Cut_reversed s start end_ st Hwf) as Hrev.
      case_decide as Hroom.
      * destruct Hrev as (st' & Hrun); [lia..|].
        rewrite Hrun. split; [|lia]. by intros (e & st'' & [=] & _).
      * split; [lia|]. intros _. apply Hrev; lia.
  - intros Hes Hstart Hroom.
    pose proof (Cut_reversed s start end_ st Hwf Hes Hstart) as Hrev.
    by rewrite decide_True in Hrev.
Qed.

Lemma Delete_panic_bounds s index st :
  slice_wf st s →
  ¬ (0 ≤ index < len s) →
  Delete s index st = (Panic slice_bounds_out_of_range, st).
Proof.
  intros (a & Ha & Hoff & Hlen & Hcap & Hfit) Hbad.
  unfold Delete, slice_from, int_add. rewrite run_bind.
  destruct (decide (index = len s)) as [->|Hne].
  - rewrite slice_expr_ok by lia.
    rewrite run_bind, slice_expr_panic; [done|].
    destruct (decide (len s = max_int)) as [Hmax|Hmax].
    + rewrite wrap_overflow by (unfold max_int in *; lia).
      unfold max_int in *; lia.
    + rewrite wrap_small by (unfold min_int, max_int in *; lia). lia.
  - rewrite slice_expr_panic by lia. done.
Qed.

Lemma append_one_overflow s v st :
  len s = max_int → append s [v] st = (Panic len_out_of_range, st).
Proof.
  intros Hmax. unfold append, int_add. cbn [length].
  rewrite wrap_overflow by (unfold max_int in *; lia).
  replace (len s + Z.of_nat 1 - 2 ^ 64 <? 0) with true
    by (unfold max_int in *; lia).
  reflexivity.
Qed.

Lemma Insert_panic_bounds s element index st :
  slice_wf st s →
  min_int ≤ index ≤ max_int →
  ¬ (0 ≤ index ≤ len s) →
  ∃ e st',
    Insert s element index st = (Panic e, st')
    ∧ e ≠ invalid_memory
    ∧ contents st' s = contents st s.
Proof.
  intros Hwf Hint Hbad. unfold Insert. rewrite run_bind.
  pose proof Hwf as (a & Ha & Hoff & Hlen & Hcap & Hfit).
  destruct (decide (len s = max_int)) as [Hmax|Hmax].
  { rewrite append_one_overflow by done. by eexists _, _. }
  destruct (append_spec s [zero_value] st Hwf)
    as (st1 & s1 & Happ & Hwf1 & Hlen1 & _ & Hframe & _); [cbn; lia|].
  cbn [length] in Hlen1. rewrite Happ.
  destruct Hwf1 as (a1 & Ha1 & Hoff1 & Hlen1' & Hcap1 & Hfit1).
  unfold slice_from, int_add.
  exists slice_bounds_out_of_range, st1. split; [|done].
  destruct (decide (index = -1)) as [->|Hm1].
  - rewrite wrap_small by (unfold min_int, max_int in *; lia).
    rewrite run_bind, slice_expr_ok by lia.
    rewrite run_bind, slice_expr_panic by lia. done.
  - rewrite run_bind, slice_expr_panic; [done|].
    destruct (decide (index = max_int)) as [->|Hmx].
    + rewrite wrap_overflow by (unfold max_int in *; lia).
      unfold max_int in *; lia.
    + rewrite wrap_small by (unfold min_int, max_int in *; lia). lia.
Qed.

(** C9, amended: [Cut] with an index negative or greater than [len(s)] and
    [Delete] with an index outside [0, len(s)) panic at once and leave the
    store as it was; [Insert] with an index outside [0, len(s)] panics and
    leaves the elements of [s] as they were (what it appended lies behind
    them).  Nothing is said of [Cut] with [end < start <= len(s)]. *)
Theorem invalid_index_keeps_elements s start end_ index element st :
  slice_wf st s →
  min_int ≤ index ≤ max_int →
  (start < 0 ∨ len s < start ∨ end_ < 0 ∨ len s < end_ →
   Cut s start end_ st = (Panic slice_bounds_out_of_range, st))
  ∧ (¬ (0 ≤ index < len s) →
     Delete s index st = (Panic slice_bounds_out_of_range, st))
  ∧ (¬ (0 ≤ index ≤ len s) →
     ∃ e st', Insert s element index st = (Panic e, st')
              ∧ e ≠ invalid_memory
              ∧ contents st' s = contents st s).
Proof.
  intros Hwf Hint. split_and!.
  - apply Cut_panic_bounds.
  - by apply Delete_panic_bounds.
  - by apply Insert_panic_bounds.
Qed.

(** *** The stack methods, seen from the caller *)

Lemma index_get_ok s i st a v :
  st !! arr s = Some a → 0 ≤ i < len s →
  a !! Z.to_nat (off s + i) = Some v →
  index_get s i st = (Ok v, st).
Proof.
  intros Ha Hi Hv. unfold index_get.
  replace ((0 <=? i) && (i <? len s)) with true by lia.
  rewrite run_bind. unfold read_array. by rewrite Ha, Hv.
Qed.

Lemma contents_lookup st s a (i : nat) :
  st !! arr s = Some a → 0 ≤ off s → (i < Z.to_nat (len s))%nat →
  contents st s !! i = a !! Z.to_nat (off s + Z.of_nat i).
Proof.
  intros Ha Hoff Hi. unfold contents. rewrite Ha. lookup_solve.
Qed.

(** X14: [Push] appends to its own copy of the header: the caller's stack
    has the elements it had. *)
Lemma Push_keeps_caller_stack s element st :
  slice_wf st s → len s < max_int →
  ∃ st', Push s element st = (Ok tt, st')
         ∧ contents st' s = contents st s.
Proof.
  intros Hwf Hmax.
  destruct (append_spec s [element] st Hwf)
    as (st' & r & Happ & _ & _ & _ & Hframe & _); [cbn; lia|].
  exists st'. unfold Push. by rewrite run_bind, Happ.
Qed.

Lemma operands_ok {A B} (a : M T A) (b : M T B) st x y :
  a st = (Ok x, st) → b st = (Ok y, st) →
  operands a b st = (Ok (x, y), st).
Proof.
  intros Ha Hb. unfold operands. destruct slice_first.
  - by rewrite run_bind, Hb, run_bind, Ha.
  - by rewrite run_bind, Ha, run_bind, Hb.
Qed.

(** [Pop] returns the last element and leaves store and caller's header
    as they were. *)
Lemma Pop_keeps_caller_stack s st :
  slice_wf st s → 0 < len s →
  ∃ v, Pop s st = (Ok v, st) ∧ last (contents st s) = Some v.
Proof.
  intros Hwf Hlen. pose proof (contents_length _ _ Hwf) as Hclen.
  destruct Hwf as (a & Ha & Hoff & Hlens & Hcap & Hfit).
  destruct (lookup_lt_is_Some_2 a (Z.to_nat (off s + (len s - 1))))
    as [v Hv]; [lia|].
  exists v. unfold Pop, slice_to, int_sub.
  rewrite wrap_small by (unfold min_int, max_int in *; lia).
  rewrite run_bind.
  erewrite operands_ok;
    [|by apply (index_get_ok _ _ _ a v); (done || lia)
     |by apply slice_expr_ok; lia].
  split; [done|].
  rewrite last_lookup, (contents_lookup _ _ a) by (done || lia).
  rewrite <- Hv. f_equal. lia.
Qed.

(** X17: [Shift] returns the first element and leaves store and caller's
    header as they were. *)
Lemma Shift_keeps_caller_stack s st :
  slice_wf st s → 0 < len s →
  ∃ v, Shift s st = (Ok v, st) ∧ head (contents st s) = Some v.
Proof.
  intros Hwf Hlen. pose proof (contents_length _ _ Hwf) as Hclen.
  destruct Hwf as (a & Ha & Hoff & Hlens & Hcap & Hfit).
  destruct (lookup_lt_is_Some_2 a (Z.to_nat (off s + 0)))
    as [v Hv]; [lia|].
  exists v. unfold Shift, slice_from.
  rewrite run_bind.
  erewrite operands_ok;
    [|by apply (index_get_ok _ _ _ a v); (done || lia)
     |by apply slice_expr_ok; lia].
  split; [done|].
  rewrite head_lookup, (contents_lookup _ _ a) by (done || lia).
  done.
Qed.

Lemma slice_literal_run vs st :
  slice_literal vs st
  = (Ok (SliceHeader (length st) 0 (Z.of_nat (length vs))
                     (Z.of_nat (length vs))), st ++ [vs]).
Proof. reflexivity. Qed.

Lemma elements_run s st : elements s st = (Ok (contents st s), st).
Proof. reflexivity. Qed.

(** X15: [Unshift] builds a new slice and assigns it to its own copy of
    the header: the caller's stack has the elements it had. *)
Lemma Unshift_keeps_caller_stack s element st :
  slice_wf st s → len s < max_int →
  ∃ st', Unshift s element st = (Ok tt, st')
         ∧ contents st' s = contents st s.
Proof.
  intros Hwf Hmax. pose proof (contents_length _ _ Hwf) as Hclen.
  assert (arr s < length st)%nat as Hid.
  { destruct Hwf as (a & Ha & _). by eapply lookup_lt_Some. }
  unfold Unshift.
  rewrite run_bind, slice_literal_run, run_bind, elements_run.
  cbn [length]. rewrite contents_alloc by done. rewrite run_bind.
  destruct (append_spec (SliceHeader (length st) 0 1 1) (contents st s)
              (st ++ [[element]]))
    as (st' & r & Happ & _ & _ & _ & _ & Hframe).
  { exists [element]. cbn [arr off len cap length].
    split_and!; [by apply list_lookup_middle|unfold max_int; lia..]. }
  { cbn [len]. lia. }
  exists st'. change (Z.of_nat 1) with 1. rewrite Happ. split; [done|].
  rewrite Hframe; [by apply contents_alloc| |].
  - rewrite length_app. lia.
  - cbn [arr]. lia.
Qed.

End SliceFacts.

(** ** The array utilities and the stack on concrete slices *)

Ltac wf_concrete a :=
  exists a; cbn; unfold max_int; split_and!; (reflexivity || lia).

(** The end-to-end examples: [Insert([1,2,3], 9, 1)] is [[1,9,2,3]],
    [Delete] at 1 undoes it, and [Cut([1,2,3,4,5], 1, 3)] is [[1,4,5]]. *)
Example Insert_Delete_Cut_examples :
  returned_elements (Insert slice123 9 1 store123) = Ok [1; 9; 2; 3]
  ∧ returned_elements ((i ← Insert slice123 9 1; Delete i 1) store123)
    = Ok [1; 2; 3]
  ∧ returned_elements (Cut slice12345 1 3 store12345) = Ok [1; 4; 5].
Proof. done. Qed.

Lemma Cut_removes_range_witness :
  slice_wf store12345 slice12345
  ∧ 0 ≤ 1 ≤ 3 ∧ 3 ≤ len slice12345
  ∧ ∃ st' r,
      Cut slice12345 1 3 store12345 = (Ok r, st')
      ∧ len r = len slice12345 - (3 - 1)
      ∧ contents st' r
        = take (Z.to_nat 1) (contents store12345 slice12345)
          ++ drop (Z.to_nat 3) (contents store12345 slice12345).
Proof.
  assert (slice_wf store12345 slice12345) as Hwf
    by wf_concrete [1; 2; 3; 4; 5].
  split_and!; [exact Hwf|cbn; lia..|].
  apply (Cut_removes_range slice12345 1 3 store12345 Hwf); cbn; lia.
Defined.

Lemma Delete_Insert_identity_witness :
  slice_wf store123 slice123
  ∧ 0 ≤ 1 ≤ len slice123
  ∧ len slice123 < max_int
  ∧ ∃ st' r,
      (inserted ← Insert slice123 9 1; Delete inserted 1) store123
      = (Ok r, st')
      ∧ contents st' r = contents store123 slice123.
Proof.
  assert (slice_wf store123 slice123) as Hwf by wf_concrete [1; 2; 3].
  split_and!; [exact Hwf|unfold max_int; cbn; lia..|].
  apply (Delete_Insert_identity slice123 9 1 store123 Hwf);
    [cbn; lia|unfold max_int; cbn; lia].
Defined.

Lemma Pop_Shift_empty_panic_witness :
  len stack_empty = 0
  ∧ Pop stack_empty store_empty
    = (Panic slice_bounds_out_of_range, store_empty)
  ∧ Shift stack_empty store_empty
    = (Panic slice_bounds_out_of_range, store_empty)
  ∧ bounds_error slice_bounds_out_of_range.
Proof.
  split; [reflexivity|].
  exact (Pop_Shift_empty_panic stack_empty store_empty eq_refl).
Defined.

(** C8 fails as stated: [Cut] with [start = 2 > end = 1] on a slice of
    length 3 and capacity 5 does not fail; it returns a slice of length 4,
    after [copy] has overwritten the third element. *)
Lemma Cut_reversed_range_returns :
  slice_wf store123_spare slice123_spare
  ∧ 1 < 2
  ∧ Cut slice123_spare 2 1 store123_spare
    = (Ok (SliceHeader 0 0 4 5), [[1; 2; 2; 0; 0]])
  ∧ ¬ (∃ e st', Cut slice123_spare 2 1 store123_spare = (Panic e, st')).
Proof.
  split_and!; [wf_concrete [1; 2; 3; 0; 0]|lia|reflexivity|].
  intros (e & st' & Hrun). discriminate Hrun.
Qed.

Lemma Cut_fails_iff_witness :
  slice_wf store123_spare slice123_spare
  ∧ ((∃ e st', Cut slice123_spare 2 1 store123_spare = (Panic e, st')
               ∧ bounds_error e)
     ↔ (2 < 0 ∨ len slice123_spare < 2 ∨ 1 < 0 ∨ len slice123_spare < 1
        ∨ cap slice123_spare < len slice123_spare - 1 + 2))
  ∧ ∃ st', Cut slice123_spare 2 1 store123_spare
           = (Ok (SliceHeader (arr slice123_spare) (off slice123_spare)
                    (len slice123_spare - 1 + 2) (cap slice123_spare)), st').
Proof.
  assert (slice_wf store123_spare slice123_spare) as Hwf
    by wf_concrete [1; 2; 3; 0; 0].
  destruct (Cut_fails_iff slice123_spare 2 1 store123_spare Hwf)
    as [Hiff Hreturns].
  split; [exact Hwf|]. split; [exact Hiff|].
  apply Hreturns; cbn; lia.
Defined.

(** C9 fails as stated: [Cut] with [start = 2 > end = 1] on [[1, 2, 3]]
    (capacity 3) panics at its last slice expression, after [copy] has
    overwritten the third element. *)
Lemma Cut_fails_after_copy :
  ¬ (0 ≤ 2 ≤ 1 ∧ 1 ≤ len slice123)
  ∧ Cut slice123 2 1 store123 = (Panic slice_bounds_out_of_range, [[1; 2; 2]])
  ∧ contents [[1; 2; 2]] slice123 ≠ contents store123 slice123.
Proof. split_and!; [lia|reflexivity|discriminate]. Qed.

Lemma invalid_index_keeps_elements_witness :
  slice_wf store123 slice123
  ∧ min_int ≤ 4 ≤ max_int
  ∧ Cut slice123 5 1 store123 = (Panic slice_bounds_out_of_range, store123)
  ∧ Delete slice123 4 store123 = (Panic slice_bounds_out_of_range, store123)
  ∧ ∃ e st', Insert slice123 9 4 store123 = (Panic e, st')
             ∧ e ≠ invalid_memory
             ∧ contents st' slice123 = contents store123 slice123.
Proof.
  assert (slice_wf store123 slice123) as Hwf by wf_concrete [1; 2; 3].
  assert (min_int ≤ 4 ≤ max_int) as Hint by (unfold min_int, max_int; lia).
  split; [exact Hwf|]. split; [exact Hint|].
  destruct (invalid_index_keeps_elements slice123 5 1 4 9 store123 Hwf Hint)
    as (HCut & HDelete & HInsert).
  split; [apply HCut; cbn; lia|].
  split; [apply HDelete; cbn; lia|].
  apply HInsert; cbn; lia.
Defined.

(** C1 fails on the code: on [s = Stack[int]{1, 2}] every method returns
    normally and the caller's [s] still has the two elements [1, 2] -- its
    length is neither 3 after [Push(3)] or [Unshift(0)] nor 1 after [Pop()]
    or [Shift()], and the pushed 3 is not its last element nor the
    unshifted 0 its first. *)
Theorem Stack_methods_leave_caller_stack :
  (fst (Push stack12 3 store12) = Ok tt
   ∧ contents (snd (Push stack12 3 store12)) stack12 = [1; 2])
  ∧ (fst (Unshift stack12 0 store12) = Ok tt
     ∧ contents (snd (Unshift stack12 0 store12)) stack12 = [1; 2])
  ∧ (fst (Pop stack12 store12) = Ok 2
     ∧ contents (snd (Pop stack12 store12)) stack12 = [1; 2])
  ∧ (fst (Shift stack12 store12) = Ok 1
     ∧ contents (snd (Shift stack12 store12)) stack12 = [1; 2]).
Proof. split_and!; reflexivity. Qed.

(** ** Grid *)

Section GridFacts.
Context {T : Type}.
Implicit Types (grid : GridUtils.Grid T) (coord : GridUtils.Coordinate).

Lemma row_0_nonempty grid coord :
  0 < GridUtils.y coord < Z.of_nat (length grid) →
  GridUtils.row grid 0 = Ok (default [] (head grid)).
Proof.
  intros Hy. destruct grid as [|r grid]; [cbn in Hy; lia|].
  unfold GridUtils.row.
  replace ((0 <=? 0) && (0 <? Z.of_nat (length (r :: grid)))) with true
    by (cbn [length]; lia).
  reflexivity.
Qed.

(** What the code decides: both coordinates strictly positive, [y] below
    the number of rows and [x] below the length of row 0. *)
Lemma InBounds_decides grid coord :
  GridUtils.InBounds grid coord
  = Ok (bool_decide (0 < GridUtils.y coord < Z.of_nat (length grid)
                     ∧ 0 < GridUtils.x coord
                           < Z.of_nat (length (default [] (head grid))))).
Proof.
  unfold GridUtils.InBounds, and_then.
  destruct (decide (0 < GridUtils.y coord)) as [Hy0|Hy0].
  2: { replace (0 <? GridUtils.y coord) with false by lia. cbn.
       rewrite bool_decide_eq_false_2; [done|lia]. }
  replace (0 <? GridUtils.y coord) with true by lia. cbn.
  destruct (decide (0 < GridUtils.x coord)) as [Hx0|Hx0].
  2: { replace (0 <? GridUtils.x coord) with false by lia. cbn.
       rewrite bool_decide_eq_false_2; [done|lia]. }
  replace (0 <? GridUtils.x coord) with true by lia. cbn.
  destruct (decide (GridUtils.y coord < Z.of_nat (length grid))) as [Hy|Hy].
  2: { replace (GridUtils.y coord <? Z.of_nat (length grid)) with false by lia.
       rewrite bool_decide_eq_false_2; [done|lia]. }
  replace (GridUtils.y coord <? Z.of_nat (length grid)) with true by lia.
  rewrite (row_0_nonempty grid coord) by lia. cbn. f_equal.
  case_bool_decide; lia.
Qed.

(** C10: on a grid with zero rows [InBounds] returns false for every
    coordinate, and on no grid does it panic: [grid[0]] is evaluated only
    after [0 < coord.y < len(grid)] has been found true. *)
Theorem InBounds_never_panics :
  (∀ coord, GridUtils.InBounds (T:=T) [] coord = Ok false)
  ∧ (∀ grid coord, ∃ b, GridUtils.InBounds grid coord = Ok b).
Proof.
  split.
  - intros coord. rewrite InBounds_decides.
    rewrite bool_decide_eq_false_2; [done|cbn; lia].
  - intros grid coord. rewrite InBounds_decides. by eexists.
Qed.

End GridFacts.

(** C3 fails on the code: on a grid of 3 rows of 4 columns [InBounds] is
    false at (0,0) and at (0,2), where the coordinate lies inside the grid;
    row 0 and column 0 are excluded by the tests [coord.y > 0] and
    [coord.x > 0].  At (3,2), (4,0), (0,3) and (-1,0) it answers as
    expected. *)
Theorem InBounds_excludes_row_0_and_column_0 :
  GridUtils.InBounds grid3x4 (at_xy 0 0) = Ok false
  ∧ GridUtils.InBounds grid3x4 (at_xy 0 2) = Ok false
  ∧ GridUtils.InBounds grid3x4 (at_xy 3 2) = Ok true
  ∧ GridUtils.InBounds grid3x4 (at_xy 4 0) = Ok false
  ∧ GridUtils.InBounds grid3x4 (at_xy 0 3) = Ok false
  ∧ GridUtils.InBounds grid3x4 (at_xy (-1) 0) = Ok false.
Proof. split_and!; reflexivity. Qed.

(** ** Trees *)

Section TreeFacts.
Context {T : Type}.
Implicit Types (h : heap T) (t n : TreeNode T) (nodes : list (TreeNode T)).

Lemma GetNodes_mono h fuel fuel' t nodes :
  GetNodes fuel h t = Some nodes → (fuel ≤ fuel')%nat →
  GetNodes fuel' h t = Some nodes.
Proof.
  revert fuel' t nodes.
  induction fuel as [|fuel IH]; intros fuel' t nodes Hrun Hle; [done|].
  destruct fuel' as [|fuel']; [lia|].
  cbn [GetNodes] in *.
  destruct (nextSibling t) as [p|], (firstChild t) as [q|];
    simplify_option_eq; repeat (erewrite IH by (done || lia); cbn); done.
Qed.

Lemma node_returns h t sib chi :
  link_returns h (nextSibling t) sib →
  link_returns h (firstChild t) chi →
  returns h t (t :: sib ++ chi).
Proof.
  intros Hsib Hchi.
  assert (∃ f1, ∀ fuel, (f1 ≤ fuel)%nat →
            match nextSibling t with
            | Some p => n ← h !! p; ns ← GetNodes fuel h n; Some ([t] ++ ns)
            | None => Some [t]
            end = Some (t :: sib)) as [f1 Hf1].
  { destruct (nextSibling t) as [p|]; cbn in Hsib.
    - destruct Hsib as (n & Hn & f & Hf). exists f. intros fuel Hle.
      rewrite Hn. cbn. by rewrite Hf.
    - subst sib. by exists 0%nat. }
  assert (∃ f2, ∀ fuel, (f2 ≤ fuel)%nat →
            match firstChild t with
            | Some p => n ← h !! p; ns ← GetNodes fuel h n;
                        Some ((t :: sib) ++ ns)
            | None => Some (t :: sib)
            end = Some (t :: sib ++ chi)) as [f2 Hf2].
  { destruct (firstChild t) as [p|]; cbn in Hchi.
    - destruct Hchi as (n & Hn & f & Hf). exists f. intros fuel Hle.
      rewrite Hn. cbn. by rewrite Hf.
    - subst chi. exists 0%nat. intros. by rewrite app_nil_r. }
  exists (S (f1 `max` f2)). intros [|fuel] Hle; [lia|].
  cbn [GetNodes]. cbn [app]. rewrite Hf1 by lia. cbn. rewrite Hf2 by lia. done.
Qed.

Lemma link_total h l : tree_link h l → ∃ nodes, link_returns h l nodes.
Proof.
  induction 1 as [|p n Hn _ [sib Hsib] _ [chi Hchi]].
  - by exists [].
  - exists (n :: sib ++ chi), n. split; [done|]. by apply node_returns.
Qed.

(** C2: on a node [t] whose links form a tree, [GetNodes] returns [t]
    itself, followed by all that it returns on [t]'s next sibling when that
    link is present, followed by all that it returns on [t]'s first child
    when that link is present. *)
Theorem GetNodes_self_siblings_children h t :
  tree_link h (nextSibling t) →
  tree_link h (firstChild t) →
  ∃ sib chi,
    link_returns h (nextSibling t) sib
    ∧ link_returns h (firstChild t) chi
    ∧ returns h t (t :: sib ++ chi).
Proof.
  intros [sib Hsib]%link_total [chi Hchi]%link_total.
  exists sib, chi. split_and!; [done..|]. by apply node_returns.
Qed.

(** C6, amended: for the tree with [R.firstChild = &A],
    [A.nextSibling = &B], [A.firstChild = &C] and no other link,
    [GetNodes] on R returns exactly [[R, A, B, C]]: A's sibling B comes
    before A's child C. *)
Theorem GetNodes_R_A_B_C h (R A B C : TreeNode T) pA pB pC :
  firstChild R = Some pA → nextSibling R = None →
  h !! pA = Some A → nextSibling A = Some pB → firstChild A = Some pC →
  h !! pB = Some B → nextSibling B = None → firstChild B = None →
  h !! pC = Some C → nextSibling C = None → firstChild C = None →
  returns h R [R; A; B; C].
Proof.
  intros HR1 HR2 HA HA1 HA2 HB HB1 HB2 HC HC1 HC2.
  exists 3%nat. intros fuel Hle. apply (GetNodes_mono h 3); [|done].
  cbn. rewrite HR1, HR2. cbn. rewrite HA. cbn. rewrite HA1, HA2. cbn.
  rewrite HB, HC. cbn. rewrite HB1, HB2, HC1, HC2. done.
Qed.

End TreeFacts.

Lemma tree_link_leaf_A : tree_link heap_RABC (Some 1%nat).
Proof.
  apply (tree_node _ _ node_A); [reflexivity|..]; cbn.
  - apply (tree_node _ _ node_B); [reflexivity|apply tree_nil..].
  - apply (tree_node _ _ node_C); [reflexivity|apply tree_nil..].
Defined.

Lemma GetNodes_self_siblings_children_witness :
  tree_link heap_RABC (nextSibling node_R)
  ∧ tree_link heap_RABC (firstChild node_R)
  ∧ ∃ sib chi,
      link_returns heap_RABC (nextSibling node_R) sib
      ∧ link_returns heap_RABC (firstChild node_R) chi
      ∧ returns heap_RABC node_R (node_R :: sib ++ chi).
Proof.
  split; [apply tree_nil|]. split; [apply tree_link_leaf_A|].
  apply (GetNodes_self_siblings_children heap_RABC node_R);
    [apply tree_nil|apply tree_link_leaf_A].
Defined.

(** C6 fails as stated: on that tree [GetNodes] returns [[R, A, B, C]],
    and no call returns [[R, A, C, B]]. *)
Lemma GetNodes_not_R_A_C_B :
  GetNodes 3 heap_RABC node_R = Some [node_R; node_A; node_B; node_C]
  ∧ ¬ (∃ fuel, GetNodes fuel heap_RABC node_R
               = Some [node_R; node_A; node_C; node_B]).
Proof.
  split; [reflexivity|]. intros [fuel Hrun].
  destruct (decide (fuel ≤ 3)%nat) as [Hle|Hgt].
  - apply (GetNodes_mono _ _ 3) in Hrun; [|done]. discriminate Hrun.
  - assert (GetNodes fuel heap_RABC node_R
            = Some [node_R; node_A; node_B; node_C]) as Hreal.
    { apply (GetNodes_mono _ 3); [reflexivity|lia]. }
    rewrite Hreal in Hrun. discriminate Hrun.
Qed.

Lemma GetNodes_R_A_B_C_witness :
  firstChild node_R = Some 1%nat ∧ nextSibling node_R = None
  ∧ heap_RABC !! 1%nat = Some node_A
  ∧ nextSibling node_A = Some 2%nat ∧ firstChild node_A = Some 3%nat
  ∧ heap_RABC !! 2%nat = Some node_B
  ∧ nextSibling node_B = None ∧ firstChild node_B = None
  ∧ heap_RABC !! 3%nat = Some node_C
  ∧ nextSibling node_C = None ∧ firstChild node_C = None
  ∧ returns heap_RABC node_R [node_R; node_A; node_B; node_C].
Proof.
  split_and!; [reflexivity..|].
  apply (GetNodes_R_A_B_C heap_RABC node_R node_A node_B node_C 1 2 3);
    reflexivity.
Defined.

(** ** Arithmetic of [int], continued *)

Lemma wrap_range z : min_int ≤ wrap z ≤ max_int.
Proof.
  unfold wrap, min_int, max_int.
  pose proof (Z.mod_pos_bound (z + 2 ^ 63) (2 ^ 64)). lia.
Qed.

Lemma wrap_mod z : wrap z `mod` 2 ^ 64 = z `mod` 2 ^ 64.
Proof.
  unfold wrap.
  rewrite Zminus_mod_idemp_l. f_equal. lia.
Qed.

Lemma wrap_congr a b : a `mod` 2 ^ 64 = b `mod` 2 ^ 64 → wrap a = wrap b.
Proof.
  intros Hab. unfold wrap. f_equal.
  rewrite <- (Zplus_mod_idemp_l a), <- (Zplus_mod_idemp_l b). by rewrite Hab.
Qed.

Lemma wrap_mul_l a b : wrap (wrap a * b) = wrap (a * b).
Proof.
  apply wrap_congr.
  rewrite <- (Zmult_mod_idemp_l (wrap a)), wrap_mod.
  by rewrite Zmult_mod_idemp_l.
Qed.

Lemma Abs_spec x :
  min_int ≤ x ≤ max_int →
  (x ≠ min_int → Abs x = Z.abs x)
  ∧ (0 ≤ Abs x ↔ x ≠ min_int).
Proof.
  intros Hx. unfold Abs, int_neg.
  destruct (decide (x = min_int)) as [->|Hne].
  - split; [done|]. vm_compute. split; [intros H; by destruct H|done].
  - destruct (x <? 0) eqn:Hneg.
    + rewrite wrap_small by (unfold min_int, max_int in *; lia). lia.
    + lia.
Qed.

Lemma Pow_loop_spec fuel n m i :
  2 ≤ i ≤ m + 1 → m < max_int →
  (m - i + 2 ≤ Z.of_nat fuel) →
  Pow_loop fuel n m i (wrap (n ^ (i - 1))) = Some (wrap (n ^ m)).
Proof.
  revert i. induction fuel as [|fuel IH]; intros i Hi Hm Hfuel; [lia|].
  cbn [Pow_loop]. destruct (i <=? m) eqn:Hle.
  - unfold int_add, int_mul.
    rewrite (wrap_small (i + 1)) by (unfold min_int, max_int in *; lia).
    rewrite wrap_mul_l.
    replace (n ^ (i - 1) * n) with (n ^ (i + 1 - 1)).
    + apply IH; lia.
    + replace (i + 1 - 1) with (Z.succ (i - 1)) by lia.
      rewrite Z.pow_succ_r by lia. lia.
  - do 3 f_equal. lia.
Qed.

(** ** Math *)

(** X1: for an [int] [x] other than the least one, [Abs(x)] is the absolute
    value of [x]; for the least [int], whose negation overflows, [Abs]
    returns it unchanged, so [Abs(x)] is negative exactly there. *)
Theorem Abs_absolute_value_except_min_int x :
  min_int ≤ x ≤ max_int →
  (x ≠ min_int → Abs x = Z.abs x)
  ∧ (x = min_int → Abs x = min_int)
  ∧ (0 ≤ Abs x ↔ x ≠ min_int).
Proof.
  intros Hx. destruct (Abs_spec x Hx) as [Habs Hsign].
  split_and!; [done| |done]. intros ->. reflexivity.
Qed.

Lemma Pow_spec fuel n m :
  min_int ≤ n ≤ max_int →
  0 ≤ m < max_int →
  m ≤ Z.of_nat fuel →
  Pow fuel n m = Some (wrap (n ^ m)).
Proof.
  intros Hn Hm Hfuel. unfold Pow.
  destruct (m =? 0) eqn:H0.
  { replace m with 0 by lia. reflexivity. }
  destruct (m =? 1) eqn:H1.
  { replace m with 1 by lia. by rewrite Z.pow_1_r, wrap_small. }
  rewrite <- (Pow_loop_spec fuel n m 2) by lia.
  change (2 - 1) with 1. by rewrite Z.pow_1_r, wrap_small.
Qed.

(** X2: for an exponent [0 <= m < max_int], [Pow(n, m)] returns [n] to the
    power [m] reduced to an [int] by two's-complement wrap-around (the loop
    runs [m - 1] times, so a call of depth [m] returns). *)
Theorem Pow_power_wrapped fuel n m :
  min_int ≤ n ≤ max_int →
  0 ≤ m < max_int →
  m ≤ Z.of_nat fuel →
  Pow fuel n m = Some (wrap (n ^ m)).
Proof. apply Pow_spec. Qed.

(** X3: when [n] to the power [m] is itself an [int], [Pow(n, m)] returns
    exactly that power. *)
Theorem Pow_exact_when_it_fits fuel n m :
  min_int ≤ n ≤ max_int →
  0 ≤ m < max_int →
  min_int ≤ n ^ m ≤ max_int →
  m ≤ Z.of_nat fuel →
  Pow fuel n m = Some (n ^ m).
Proof.
  intros Hn Hm Hfits Hfuel. rewrite Pow_spec by done. by rewrite wrap_small.
Qed.

(** X4: for a negative exponent the loop does not run and [Pow(n, m)]
    returns [n] itself. *)
Theorem Pow_negative_exponent_returns_base fuel n m :
  m < 0 → Pow (S fuel) n m = Some n.
Proof.
  intros Hm. unfold Pow.
  replace (m =? 0) with false by lia. replace (m =? 1) with false by lia.
  cbn [Pow_loop]. by replace (2 <=? m) with false by lia.
Qed.

Lemma Pow_loop_max_int fuel n i result :
  min_int ≤ i ≤ max_int → Pow_loop fuel n max_int i result = None.
Proof.
  revert i result. induction fuel as [|fuel IH]; intros i result Hi; [done|].
  cbn [Pow_loop]. replace (i <=? max_int) with true by lia.
  apply IH, wrap_range.
Qed.

(** X5: with the exponent [max_int] the loop test [i <= m] is true for
    every [int] [i] (and [i++] wraps around), so [Pow(n, max_int)] never
    returns. *)
Theorem Pow_max_int_never_returns fuel n : Pow fuel n max_int = None.
Proof.
  unfold Pow. change (max_int =? 0) with false. change (max_int =? 1) with false.
  apply Pow_loop_max_int. unfold min_int, max_int. lia.
Qed.

(** ** More on the array utilities *)

Section SliceMore.
Context {T : Type} `{!ZeroValue T} `{!GrowPolicy} `{!OperandOrder}.
Implicit Types (s : slice_header) (st : store T) (a : list T).

Lemma for_each_index_set_zero s ks st a :
  st !! arr s = Some a →
  Forall (λ k, 0 ≤ k < len s) ks →
  ∃ a', for_each (λ k, index_set s k zero_value) ks st
        = (Ok tt, <[arr s := a']> st)
        ∧ length a' = length a
        ∧ (∀ j, Forall (λ k, j ≠ Z.to_nat (off s + k)) ks → a' !! j = a !! j)
        ∧ (∀ j, Exists (λ k, j = Z.to_nat (off s + k)) ks →
                (j < length a)%nat → a' !! j = Some zero_value).
Proof.
  intros Ha Hks. revert st a Ha.
  induction Hks as [|k ks Hk Hks IH]; intros st a Ha.
  - exists a. split_and!; [by rewrite list_insert_id|done|done|].
    intros j Hj. by apply Exists_nil in Hj.
  - cbn [for_each]. rewrite run_bind, (index_set_ok _ _ _ _ a) by done.
    destruct (IH (<[arr s := <[Z.to_nat (off s + k) := zero_value]> a]> st)
                 (<[Z.to_nat (off s + k) := zero_value]> a))
      as (a' & Hrun & Hlen & Hsame & Hzero).
    { by eapply store_lookup_update. }
    exists a'. rewrite Hrun, store_update_twice.
    split_and!; [done| by rewrite Hlen, length_insert | |].
    + intros j Hj. inversion_clear Hj as [|?? Hne Hrest].
      rewrite Hsame by done. by apply list_lookup_insert_ne.
    + intros j Hj Hlt.
      destruct (decide (Exists (λ k, j = Z.to_nat (off s + k)) ks))
        as [Hin|Hout].
      * apply Hzero; [done|]. by rewrite length_insert.
      * apply Exists_cons in Hj as [->|Hj]; [|done].
        rewrite Hsame; [by apply list_lookup_insert_eq|].
        apply Forall_forall. intros k' Hk' Heq. apply Hout.
        apply Exists_exists. eauto.
Qed.

Lemma Cut_in_place_spec s start end_ st :
  slice_wf st s →
  0 ≤ start ≤ end_ → end_ ≤ len s →
  ∃ st',
    Cut s start end_ st
    = (Ok (SliceHeader (arr s) (off s) (len s - (end_ - start)) (cap s)), st')
    ∧ contents st' s
      = take (Z.to_nat start) (contents st s)
        ++ drop (Z.to_nat end_) (contents st s)
        ++ replicate (Z.to_nat (end_ - start)) zero_value.
Proof.
  intros (a & Ha & Hoff & Hlen & Hcap & Hfit) Hse Hend.
  unfold Cut, slice_from, slice_to, for_lt, int_add, int_sub.
  rewrite (wrap_small (len s - end_)) by (unfold min_int, max_int in *; lia).
  rewrite (wrap_small (len s - end_ + start))
    by (unfold min_int, max_int in *; lia).
  rewrite run_bind, slice_expr_ok by lia.
  rewrite run_bind, slice_expr_ok by lia.
  rewrite run_bind, (copy_ok _ _ _ a a) by done.
  cbn [arr off len cap].
  set (a1 := list_inserts _ _ a).
  destruct (for_each_index_set_zero s
              (seqZ (len s - end_ + start) (len s - (len s - end_ + start)))
              (<[arr s := a1]> st) a1) as (a2 & Hrun & Hlen2 & Hsame & Hzero).
  { by eapply store_lookup_update. }
  { apply Forall_seqZ. lia. }
  rewrite run_bind, Hrun, store_update_twice.
  rewrite slice_expr_ok by lia.
  eexists. split.
  { do 3 f_equal; lia. }
  assert (length a1 = length a) as Hlen1 by (subst a1; apply length_inserts).
  unfold contents. cbn [arr off len cap].
  rewrite (store_lookup_update _ _ a) by done. rewrite Ha.
  apply list_eq. intros i.
  destruct (decide (i < Z.to_nat start)%nat) as [Hi|Hi];
    [|destruct (decide (i < Z.to_nat (len s - end_ + start))%nat) as [Hi'|Hi'];
      [|destruct (decide (i < Z.to_nat (len s))%nat) as [Hi''|Hi'']]].
  - rewrite lookup_take_lt, lookup_drop by lia.
    rewrite Hsame by (apply Forall_seqZ; lia). subst a1.
    lookup_solve.
  - rewrite lookup_take_lt, lookup_drop by lia.
    rewrite Hsame by (apply Forall_seqZ; lia). subst a1.
    lookup_solve.
    rewrite lookup_app_l by (rewrite length_drop, length_take, length_drop; lia).
    lookup_solve.
  - rewrite lookup_take_lt, lookup_drop by lia.
    rewrite Hzero.
    + lookup_solve.
      rewrite lookup_app_r by (rewrite length_drop, length_take, length_drop; lia).
      rewrite length_drop, length_take, length_drop. lookup_solve.
    + apply Exists_exists. exists (Z.of_nat i). split; [|lia].
      apply elem_of_seqZ. lia.
    + lia.
  - lookup_solve. symmetry. apply lookup_ge_None_2.
    rewrite length_app, length_drop, length_take, length_drop,
      length_replicate. lia.
Qed.

Lemma Cut_one_Delete s index st :
  slice_wf st s →
  Cut s index (int_add index 1) st = Delete s index st.
Proof.
  intros Hwf. pose proof Hwf as (a & Ha & Hoff & Hlen & Hcap & Hfit).
  destruct (decide (0 ≤ index < len s)) as [Hindex|Hbad].
  - unfold Cut, Delete, slice_from, slice_to, for_lt, int_add, int_sub.
    rewrite !(wrap_small (index + 1)) by (unfold min_int, max_int in *; lia).
    rewrite (wrap_small (len s - (index + 1)))
      by (unfold min_int, max_int in *; lia).
    rewrite (wrap_small (len s - (index + 1) + index))
      by (unfold min_int, max_int in *; lia).
    rewrite (wrap_small (len s - 1)) by (unfold min_int, max_int in *; lia).
    rewrite !run_bind, !slice_expr_ok by lia.
    rewrite !run_bind, !slice_expr_ok by lia.
    rewrite !run_bind, !(copy_ok _ _ _ a a) by done.
    cbn [arr off len cap]. set (a1 := list_inserts _ _ a).
    replace (len s - (index + 1) + index) with (len s - 1) by lia.
    replace (len s - (len s - 1)) with 1 by lia.
    rewrite seqZ_cons, seqZ_nil by lia.
    cbn [for_each].
    rewrite !run_bind, !(index_set_ok _ _ _ _ a1)
      by first [by eapply store_lookup_update | lia].
    by rewrite run_ret.
  - rewrite Delete_panic_bounds by done. apply Cut_panic_bounds.
    unfold int_add.
    destruct (decide (index = max_int)) as [->|Hmax].
    + rewrite wrap_overflow by (unfold max_int; lia).
      unfold max_int in *. lia.
    + destruct (decide (index < min_int)); [unfold min_int in *; lia|].
      destruct (decide (max_int < index)); [unfold max_int in *; lia|].
      rewrite wrap_small by (unfold min_int, max_int in *; lia). lia.
Qed.

(** X8: [Cut] works in the backing array of its argument: after a valid
    call the slice the caller passed, which keeps its length, holds the kept
    elements followed by [end - start] zero values, and the returned slice is
    its prefix (same array, offset and capacity). *)
Theorem Cut_zeroes_tail_of_original s start end_ st :
  slice_wf st s →
  0 ≤ start ≤ end_ → end_ ≤ len s →
  ∃ st',
    Cut s start end_ st
    = (Ok (SliceHeader (arr s) (off s) (len s - (end_ - start)) (cap s)), st')
    ∧ contents st' s
      = take (Z.to_nat start) (contents st s)
        ++ drop (Z.to_nat end_) (contents st s)
        ++ replicate (Z.to_nat (end_ - start)) zero_value.
Proof. apply Cut_in_place_spec. Qed.

(** X9: cutting the one-element range [[index, index+1)] is [Delete]: the
    two calls return the same slice and leave the same store, and they panic
    on the same indices. *)
Theorem Cut_one_is_Delete s index st :
  slice_wf st s →
  Cut s index (int_add index 1) st = Delete s index st.
Proof. apply Cut_one_Delete. Qed.

(** X10: [Delete] works in the backing array of its argument: after a
    valid call the slice the caller passed, which keeps its length, holds
    the remaining elements followed by one zero value. *)
Theorem Delete_zeroes_last_of_original s index st :
  slice_wf st s →
  0 ≤ index < len s →
  ∃ st',
    Delete s index st
    = (Ok (SliceHeader (arr s) (off s) (len s - 1) (cap s)), st')
    ∧ contents st' s
      = take (Z.to_nat index) (contents st s)
        ++ drop (Z.to_nat (index + 1)) (contents st s) ++ [zero_value].
Proof.
  intros Hwf Hindex. pose proof Hwf as (a & Ha & Hoff & Hlen & Hcap & Hfit).
  rewrite <- Cut_one_Delete by done. unfold int_add.
  rewrite wrap_small by (unfold min_int, max_int in *; lia).
  destruct (Cut_in_place_spec s index (index + 1) st Hwf) as (st' & Hrun & Hc);
    [lia..|].
  exists st'. rewrite Hrun, Hc. split; [do 3 f_equal; lia|].
  by replace (index + 1 - index) with 1 by lia.
Qed.

(** X6: for [0 <= index < len(s)], [Delete] returns a slice one shorter
    that holds the elements of [s] before [index] followed by those after
    it. *)
Theorem Delete_removes_index s index st :
  slice_wf st s →
  0 ≤ index < len s →
  ∃ st' r,
    Delete s index st = (Ok r, st')
    ∧ len r = len s - 1
    ∧ contents st' r
      = take (Z.to_nat index) (contents st s)
        ++ drop (Z.to_nat (index + 1)) (contents st s).
Proof. apply Delete_spec. Qed.

(** X7: for [0 <= index <= len(s)], [Insert] returns a slice one longer
    that holds the elements of [s] before [index], then the element, then
    the elements of [s] from [index] on; at [index = len(s)] it appends. *)
Theorem Insert_places_element s element index st :
  slice_wf st s →
  0 ≤ index ≤ len s →
  len s < max_int →
  ∃ st' r,
    Insert s element index st = (Ok r, st')
    ∧ len r = len s + 1
    ∧ contents st' r
      = take (Z.to_nat index) (contents st s)
        ++ element :: drop (Z.to_nat index) (contents st s).
Proof.
  intros Hwf Hindex Hmax.
  destruct (Insert_spec s element index st Hwf Hindex Hmax)
    as (st' & r & Hrun & _ & Hlen & Hc).
  by exists st', r.
Qed.

Lemma append_in_place s vs st a :
  st !! arr s = Some a →
  0 ≤ len s → len s + Z.of_nat (length vs) ≤ cap s → cap s ≤ max_int →
  append s vs st
  = (Ok (SliceHeader (arr s) (off s) (len s + Z.of_nat (length vs)) (cap s)),
     <[arr s := list_inserts (Z.to_nat (off s + len s)) vs a]> st).
Proof.
  intros Ha Hlen Hroom Hcap. unfold append, int_add.
  rewrite wrap_small by (unfold min_int, max_int in *; lia).
  replace (len s + Z.of_nat (length vs) <? 0) with false by lia.
  replace (len s + Z.of_nat (length vs) <=? cap s) with true by lia.
  rewrite run_bind. unfold read_array. rewrite Ha. reflexivity.
Qed.

Lemma append_allocates s vs st :
  0 ≤ len s → cap s < len s + Z.of_nat (length vs) ≤ max_int →
  ∃ new c, append s vs st
           = (Ok (SliceHeader (length st) 0
                    (len s + Z.of_nat (length vs)) c), st ++ [new]).
Proof.
  intros Hlen Hfull. unfold append, int_add.
  rewrite wrap_small by (unfold min_int, max_int in *; lia).
  replace (len s + Z.of_nat (length vs) <? 0) with false by lia.
  replace (len s + Z.of_nat (length vs) <=? cap s) with false by lia.
  by eexists _, _.
Qed.

Lemma append_keeps_wf s vs st st' r s0 :
  slice_wf st s → len s + Z.of_nat (length vs) ≤ max_int →
  slice_wf st s0 →
  append s vs st = (Ok r, st') →
  slice_wf st' s0.
Proof.
  intros (a & Ha & Hoff & Hlen & Hcap & Hfit) Hmax
         (a0 & Ha0 & Hwf0) Happ.
  destruct (decide (len s + Z.of_nat (length vs) ≤ cap s)) as [Hroom|Hfull].
  - rewrite (append_in_place _ _ _ a) in Happ by (done || lia).
    injection Happ as _ <-.
    destruct (decide (arr s0 = arr s)) as [Heq|Hne].
    + exists (list_inserts (Z.to_nat (off s + len s)) vs a).
      rewrite Heq, (store_lookup_update _ _ a) by done.
      rewrite length_inserts. split; [done|]. congruence.
    + exists a0. by rewrite list_lookup_insert_ne.
  - destruct (append_allocates s vs st) as (new & c & Hrun); [lia..|].
    rewrite Hrun in Happ. injection Happ as _ <-.
    exists a0. split; [|done]. apply lookup_app_l_Some, Ha0.
Qed.

Lemma contents_prefix st s r :
  arr r = arr s → off r = off s → 0 ≤ len s ≤ len r →
  contents st s = take (Z.to_nat (len s)) (contents st r).
Proof.
  intros Harr Hoff Hlen. unfold contents. rewrite Harr, Hoff.
  destruct (st !! arr s) as [a|]; [|by rewrite take_nil].
  rewrite take_take. f_equal. lia.
Qed.

(** X11: with spare capacity [Insert] works in place, in the backing array
    of its argument: the slice the caller passed, which keeps its length,
    then shows the first [len(s)] elements of the inserted sequence (its
    old last element is no longer in it when [index < len(s)]). *)
Theorem Insert_with_room_overwrites_original s element index st :
  slice_wf st s →
  0 ≤ index ≤ len s →
  len s < cap s →
  ∃ st',
    Insert s element index st
    = (Ok (SliceHeader (arr s) (off s) (len s + 1) (cap s)), st')
    ∧ contents st' s
      = take (Z.to_nat (len s))
          (take (Z.to_nat index) (contents st s)
           ++ element :: drop (Z.to_nat index) (contents st s)).
Proof.
  intros Hwf Hindex Hroom.
  pose proof Hwf as (a & Ha & Hoff & Hlen & Hcap & Hfit).
  destruct (Insert_spec s element index st Hwf Hindex)
    as (st' & r & Hrun & Hwfr & Hlenr & Hc); [lia|].
  assert (r = SliceHeader (arr s) (off s) (len s + 1) (cap s)) as ->.
  { revert Hrun. unfold Insert.
    rewrite run_bind, (append_in_place _ _ _ a) by (done || cbn; lia).
    cbn [length]. change (Z.of_nat 1) with 1.
    unfold slice_from, int_add.
    rewrite (wrap_small (index + 1)) by (unfold min_int, max_int in *; lia).
    rewrite run_bind, slice_expr_ok by (cbn; lia).
    rewrite run_bind, slice_expr_ok by (cbn; lia).
    rewrite run_bind, (copy_ok _ _ _ _ _)
      by (by eapply store_lookup_update).
    cbn [arr off len cap]. rewrite store_update_twice.
    rewrite run_bind, (index_set_ok _ _ _ _ _)
      by first [by eapply store_lookup_update | cbn; lia].
    rewrite run_ret. by intros [= <- _]. }
  exists st'. split; [done|]. rewrite <- Hc.
  apply contents_prefix; cbn; (done || lia).
Qed.

(** X12: without spare capacity [Insert] returns a slice in a newly
    allocated array, and the slice the caller passed keeps its elements. *)
Theorem Insert_without_room_keeps_original s element index st :
  slice_wf st s →
  0 ≤ index ≤ len s →
  len s = cap s → len s < max_int →
  ∃ st' r,
    Insert s element index st = (Ok r, st')
    ∧ arr r = length st
    ∧ contents st' s = contents st s.
Proof.
  intros Hwf Hindex Hfull Hmax.
  pose proof Hwf as (a & Ha & Hoff & Hlen & Hcap & Hfit).
  assert (arr s < length st)%nat as Hid by (by eapply lookup_lt_Some).
  destruct (append_allocates s [zero_value] st) as (new & c & Happ);
    [cbn; lia..|].
  destruct (append_spec s [zero_value] st Hwf)
    as (st1 & s1 & Happ' & Hwf1 & Hlen1 & _ & _ & _); [cbn; lia|].
  rewrite Happ in Happ'. injection Happ' as <- <-.
  destruct Hwf1 as (a1 & Ha1 & Hoff1 & Hlens1 & Hcap1 & Hfit1).
  cbn [arr off len cap length] in *.
  unfold Insert. rewrite run_bind, Happ.
  unfold slice_from, int_add.
  rewrite (wrap_small (index + 1)) by (unfold min_int, max_int in *; lia).
  rewrite run_bind, slice_expr_ok by (cbn; lia).
  rewrite run_bind, slice_expr_ok by (cbn; lia).
  rewrite run_bind, (copy_ok _ _ _ a1 a1) by done.
  rewrite run_bind, (index_set_ok _ _ _ _ _)
    by first [by eapply store_lookup_update | cbn; lia].
  rewrite run_ret. eexists _, _. split; [done|]. split; [done|].
  cbn [arr]. rewrite store_update_twice.
  rewrite contents_update_other by lia. by apply contents_alloc.
Qed.

Lemma Delete_result_wf s index st st' r :
  slice_wf st s →
  0 ≤ index < len s →
  Delete s index st = (Ok r, st') →
  slice_wf st' r ∧ len r = len s - 1.
Proof.
  intros (a & Ha & Hoff & Hlen & Hcap & Hfit) Hindex.
  unfold Delete, slice_from, slice_to, int_add, int_sub.
  rewrite !wrap_small by (unfold min_int, max_int in *; lia).
  rewrite run_bind, slice_expr_ok by lia.
  rewrite run_bind, slice_expr_ok by lia.
  rewrite run_bind, (copy_ok _ _ _ a a) by done.
  cbn [arr off len cap]. set (a1 := list_inserts _ _ a).
  rewrite run_bind, (index_set_ok _ _ _ _ a1)
    by first [by eapply store_lookup_update | lia].
  rewrite store_update_twice, slice_expr_ok by lia.
  intros [= <- <-]. split; [|cbn; lia].
  eexists. cbn [arr off len cap].
  rewrite (store_lookup_update _ _ a) by done. split; [done|].
  subst a1. rewrite length_insert, length_inserts. lia.
Qed.

(** X13: for [0 <= index < len(s)], deleting the element at [index] and
    inserting that element again at [index] gives back the elements of
    [s]. *)
Theorem Insert_Delete_restores s index x st :
  slice_wf st s →
  0 ≤ index < len s →
  contents st s !! Z.to_nat index = Some x →
  ∃ st' r,
    (deleted ← Delete s index; Insert deleted x index) st = (Ok r, st')
    ∧ contents st' r = contents st s.
Proof.
  intros Hwf Hindex Hx. pose proof (contents_length _ _ Hwf) as Hclen.
  pose proof Hwf as (a & Ha & Hoff & Hlen & Hcap & Hfit).
  destruct (Delete_spec s index st Hwf Hindex)
    as (st1 & s1 & Hdel & _ & Hc1).
  destruct (Delete_result_wf s index st st1 s1 Hwf Hindex Hdel)
    as [Hwf1 Hlen1].
  destruct (Insert_spec s1 x index st1 Hwf1) as (st2 & s2 & Hins & _ & _ & Hc2);
    [lia..|].
  exists st2, s2. rewrite run_bind, Hdel. split; [done|].
  rewrite Hc2, Hc1.
  rewrite take_app_length' by len_solve.
  rewrite drop_app_length' by len_solve.
  replace (Z.to_nat (index + 1)) with (S (Z.to_nat index)) by lia.
  by apply take_drop_middle.
Qed.

(** X16: on a stack that is not empty [Pop] returns the last element and
    changes nothing: the store and the caller's stack are as before, so a
    second [Pop] returns the same element. *)
Theorem Pop_returns_last_and_keeps_it s st :
  slice_wf st s → 0 < len s →
  ∃ v, Pop s st = (Ok v, st)
       ∧ last (contents st s) = Some v
       ∧ (Pop s;; Pop s) st = (Ok v, st).
Proof.
  intros Hwf Hpos.
  destruct (Pop_keeps_caller_stack s st Hwf Hpos) as (v & Hpop & Hlast).
  exists v. split_and!; [done..|]. by rewrite run_bind, Hpop.
Qed.

(** X18: with spare capacity [Push] writes the element into the caller's
    backing array, right behind the caller's last element: the caller's
    stack keeps its length, and re-sliced to [s[:len(s)+1]] it ends with
    the pushed element. *)
Theorem Push_with_room_writes_behind s element st :
  slice_wf st s →
  len s < cap s →
  ∃ st',
    Push s element st = (Ok tt, st')
    ∧ contents st' s = contents st s
    ∧ contents st' (SliceHeader (arr s) (off s) (len s + 1) (cap s))
      = contents st s ++ [element].
Proof.
  intros Hwf Hroom. pose proof Hwf as (a & Ha & Hoff & Hlen & Hcap & Hfit).
  destruct (append_spec s [element] st Hwf)
    as (st' & r & Happ & _ & _ & Hc & Hframe & _); [cbn; lia|].
  exists st'. unfold Push. rewrite run_bind, Happ. split; [done|].
  split; [done|].
  rewrite (append_in_place _ _ _ a) in Happ by (done || cbn; lia).
  injection Happ as <- _. exact Hc.
Qed.

(** X19: [Pop] after [Push] on the same stack returns the element that was
    last before the push, not the pushed one. *)
Theorem Push_then_Pop_returns_old_last s element st :
  slice_wf st s →
  0 < len s → len s < max_int →
  ∃ st' v,
    (Push s element;; Pop s) st = (Ok v, st')
    ∧ last (contents st s) = Some v.
Proof.
  intros Hwf Hpos Hmax.
  destruct (append_spec s [element] st Hwf)
    as (st' & r & Happ & _ & _ & _ & Hframe & _); [cbn; lia|].
  assert (slice_wf st' s) as Hwf'.
  { apply (append_keeps_wf s [element] st st' r s);
      [exact Hwf|cbn; lia|exact Hwf|exact Happ]. }
  destruct (Pop_keeps_caller_stack s st' Hwf' Hpos) as (v & Hpop & Hlast).
  exists st', v. rewrite run_bind. unfold Push.
  rewrite run_bind, Happ, run_ret, Hpop. split; [done|].
  by rewrite <- Hframe.
Qed.

End SliceMore.

(** ** More on the grid *)

Section GridMore.
Context {T : Type}.
Implicit Types (grid : GridUtils.Grid T) (coord : GridUtils.Coordinate).

(** X20: [InBounds] returns true exactly for the coordinates with
    [0 < y < len(grid)] and [0 < x < len(grid[0])]: both axes are tested
    against row 0's length and the row count, and row 0 and column 0 are
    outside. *)
Theorem InBounds_true_iff grid coord :
  GridUtils.InBounds grid coord = Ok true
  ↔ 0 < GridUtils.y coord < Z.of_nat (length grid)
    ∧ 0 < GridUtils.x coord < Z.of_nat (length (default [] (head grid))).
Proof.
  rewrite InBounds_decides. split.
  - intros [= Hb]. by apply bool_decide_eq_true in Hb.
  - intros Hin. by rewrite bool_decide_eq_true_2.
Qed.

(** X21: on a grid all of whose rows have row 0's length, a coordinate that
    [InBounds] accepts names a cell: [grid[coord.y][coord.x]] exists. *)
Theorem InBounds_cell_exists grid coord :
  rectangular grid →
  GridUtils.InBounds grid coord = Ok true →
  ∃ r v, grid !! Z.to_nat (GridUtils.y coord) = Some r
         ∧ r !! Z.to_nat (GridUtils.x coord) = Some v.
Proof.
  intros Hrect Hin. rewrite InBounds_decides in Hin.
  injection Hin as Hin. apply bool_decide_eq_true in Hin as [Hy Hx].
  destruct (lookup_lt_is_Some_2 grid (Z.to_nat (GridUtils.y coord)))
    as [r Hr]; [lia|].
  destruct (lookup_lt_is_Some_2 r (Z.to_nat (GridUtils.x coord)))
    as [v Hv].
  { rewrite (Hrect r) by (by eapply list_elem_of_lookup_2). lia. }
  by exists r, v.
Qed.

End GridMore.

(** ** More on trees *)

Section TreeMore.
Context {T : Type}.
Implicit Types (h : heap T) (t n : TreeNode T) (nodes : list (TreeNode T)).

Lemma represents_returns h l (sh : shape T) :
  represents h l sh →
  ∃ nodes, link_returns h l nodes ∧ element <$> nodes = sibling_first sh.
Proof.
  revert l. induction sh as [|e children IHc siblings IHs]; intros l Hrep.
  - cbn in Hrep. subst l. by exists [].
  - destruct Hrep as (p & n & -> & Hn & He & Hc & Hs).
    destruct (IHc _ Hc) as (chi & Hchi & Hechi).
    destruct (IHs _ Hs) as (sib & Hsib & Hesib).
    exists (n :: sib ++ chi). split.
    + exists n. split; [done|]. by apply node_returns.
    + cbn. rewrite fmap_app, He, Hesib, Hechi. done.
Qed.


(** X23: on a node that is its own next sibling or its own first child
    [GetNodes] never returns: the recursion has no end. *)
Theorem GetNodes_self_link_never_returns h t p fuel :
  h !! p = Some t →
  nextSibling t = Some p ∨ firstChild t = Some p →
  GetNodes fuel h t = None.
Proof.
  intros Hp Hself. induction fuel as [|fuel IH]; [done|].
  cbn [GetNodes]. destruct Hself as [Hs|Hc].
  - rewrite Hs. cbn. rewrite Hp. cbn. by rewrite IH.
  - rewrite Hc. destruct (nextSibling t) as [q|]; cbn.
    + destruct (h !! q) as [n|]; cbn; [|done].
      destruct (GetNodes fuel h n); cbn; [|done].
      rewrite Hp. cbn. by rewrite IH.
    + rewrite Hp. cbn. by rewrite IH.
Qed.

End TreeMore.

(** ** The added properties on concrete inputs *)

Lemma Abs_absolute_value_except_min_int_witness :
  min_int ≤ -5 ≤ max_int
  ∧ (-5 ≠ min_int → Abs (-5) = Z.abs (-5))
  ∧ (-5 = min_int → Abs (-5) = min_int)
  ∧ (0 ≤ Abs (-5) ↔ -5 ≠ min_int).
Proof.
  assert (min_int ≤ -5 ≤ max_int) as Hx by (unfold min_int, max_int; lia).
  split; [exact Hx|]. apply (Abs_absolute_value_except_min_int (-5) Hx).
Defined.

Lemma Pow_power_wrapped_witness :
  min_int ≤ 3 ≤ max_int ∧ 0 ≤ 40 < max_int ∧ 40 ≤ Z.of_nat 40
  ∧ Pow 40 3 40 = Some (wrap (3 ^ 40)).
Proof.
  assert (min_int ≤ 3 ≤ max_int) as Hn by (unfold min_int, max_int; lia).
  assert (0 ≤ 40 < max_int) as Hm by (unfold max_int; lia).
  assert (40 ≤ Z.of_nat 40) as Hfuel by lia.
  split; [exact Hn|]. split; [exact Hm|]. split; [exact Hfuel|].
  apply (Pow_power_wrapped 40 3 40 Hn Hm Hfuel).
Defined.

Lemma Pow_exact_when_it_fits_witness :
  min_int ≤ 2 ≤ max_int ∧ 0 ≤ 10 < max_int
  ∧ min_int ≤ 2 ^ 10 ≤ max_int ∧ 10 ≤ Z.of_nat 10
  ∧ Pow 10 2 10 = Some (2 ^ 10).
Proof.
  assert (min_int ≤ 2 ≤ max_int) as Hn by (unfold min_int, max_int; lia).
  assert (0 ≤ 10 < max_int) as Hm by (unfold max_int; lia).
  assert (min_int ≤ 2 ^ 10 ≤ max_int) as Hfits
    by (unfold min_int, max_int; lia).
  assert (10 ≤ Z.of_nat 10) as Hfuel by lia.
  split; [exact Hn|]. split; [exact Hm|]. split; [exact Hfits|].
  split; [exact Hfuel|].
  apply (Pow_exact_when_it_fits 10 2 10 Hn Hm Hfits Hfuel).
Defined.

Lemma Pow_negative_exponent_returns_base_witness :
  -3 < 0 ∧ Pow 1 7 (-3) = Some 7.
Proof.
  assert (-3 < 0) as Hm by lia.
  split; [exact Hm|]. apply (Pow_negative_exponent_returns_base 0 7 (-3) Hm).
Defined.

Lemma slice123_wf : slice_wf store123 slice123.
Proof. wf_concrete [1; 2; 3]. Defined.

Lemma slice123_spare_wf : slice_wf store123_spare slice123_spare.
Proof. wf_concrete [1; 2; 3; 0; 0]. Defined.

Lemma stack12_wf : slice_wf store12 stack12.
Proof. wf_concrete [1; 2]. Defined.

Lemma Delete_removes_index_witness :
  slice_wf store123 slice123 ∧ 0 ≤ 1 < len slice123
  ∧ ∃ st' r,
      Delete slice123 1 store123 = (Ok r, st')
      ∧ len r = len slice123 - 1
      ∧ contents st' r
        = take (Z.to_nat 1) (contents store123 slice123)
          ++ drop (Z.to_nat (1 + 1)) (contents store123 slice123).
Proof.
  assert (0 ≤ 1 < len slice123) as Hindex by (cbn; lia).
  split; [exact slice123_wf|]. split; [exact Hindex|].
  apply (Delete_removes_index slice123 1 store123 slice123_wf Hindex).
Defined.

Lemma Insert_places_element_witness :
  slice_wf store123 slice123 ∧ 0 ≤ 3 ≤ len slice123
  ∧ len slice123 < max_int
  ∧ ∃ st' r,
      Insert slice123 9 3 store123 = (Ok r, st')
      ∧ len r = len slice123 + 1
      ∧ contents st' r
        = take (Z.to_nat 3) (contents store123 slice123)
          ++ 9 :: drop (Z.to_nat 3) (contents store123 slice123).
Proof.
  assert (0 ≤ 3 ≤ len slice123) as Hindex by (cbn; lia).
  assert (len slice123 < max_int) as Hmax by (unfold max_int; cbn; lia).
  split; [exact slice123_wf|]. split; [exact Hindex|]. split; [exact Hmax|].
  apply (Insert_places_element slice123 9 3 store123 slice123_wf Hindex Hmax).
Defined.

Lemma Cut_zeroes_tail_of_original_witness :
  slice_wf store123 slice123 ∧ 0 ≤ 0 ≤ 2 ∧ 2 ≤ len slice123
  ∧ ∃ st',
      Cut slice123 0 2 store123
      = (Ok (SliceHeader (arr slice123) (off slice123)
                         (len slice123 - (2 - 0)) (cap slice123)), st')
      ∧ contents st' slice123
        = take (Z.to_nat 0) (contents store123 slice123)
          ++ drop (Z.to_nat 2) (contents store123 slice123)
          ++ replicate (Z.to_nat (2 - 0)) zero_value.
Proof.
  assert (0 ≤ 0 ≤ 2) as Hse by lia.
  assert (2 ≤ len slice123) as Hend by (cbn; lia).
  split; [exact slice123_wf|]. split; [exact Hse|]. split; [exact Hend|].
  apply (Cut_zeroes_tail_of_original slice123 0 2 store123 slice123_wf
           Hse Hend).
Defined.

Lemma Cut_one_is_Delete_witness :
  slice_wf store123 slice123
  ∧ Cut slice123 1 (int_add 1 1) store123 = Delete slice123 1 store123.
Proof.
  split; [exact slice123_wf|].
  apply (Cut_one_is_Delete slice123 1 store123 slice123_wf).
Defined.

Lemma Delete_zeroes_last_of_original_witness :
  slice_wf store123 slice123 ∧ 0 ≤ 0 < len slice123
  ∧ ∃ st',
      Delete slice123 0 store123
      = (Ok (SliceHeader (arr slice123) (off slice123)
                         (len slice123 - 1) (cap slice123)), st')
      ∧ contents st' slice123
        = take (Z.to_nat 0) (contents store123 slice123)
          ++ drop (Z.to_nat (0 + 1)) (contents store123 slice123)
          ++ [zero_value].
Proof.
  assert (0 ≤ 0 < len slice123) as Hindex by (cbn; lia).
  split; [exact slice123_wf|]. split; [exact Hindex|].
  apply (Delete_zeroes_last_of_original slice123 0 store123 slice123_wf
           Hindex).
Defined.

Lemma Insert_with_room_overwrites_original_witness :
  slice_wf store123_spare slice123_spare
  ∧ 0 ≤ 1 ≤ len slice123_spare
  ∧ len slice123_spare < cap slice123_spare
  ∧ ∃ st',
      Insert slice123_spare 9 1 store123_spare
      = (Ok (SliceHeader (arr slice123_spare) (off slice123_spare)
                         (len slice123_spare + 1) (cap slice123_spare)), st')
      ∧ contents st' slice123_spare
        = take (Z.to_nat (len slice123_spare))
            (take (Z.to_nat 1) (contents store123_spare slice123_spare)
             ++ 9 :: drop (Z.to_nat 1)
                       (contents store123_spare slice123_spare)).
Proof.
  assert (0 ≤ 1 ≤ len slice123_spare) as Hindex by (cbn; lia).
  assert (len slice123_spare < cap slice123_spare) as Hroom by (cbn; lia).
  split; [exact slice123_spare_wf|]. split; [exact Hindex|].
  split; [exact Hroom|].
  apply (Insert_with_room_overwrites_original slice123_spare 9 1
           store123_spare slice123_spare_wf Hindex Hroom).
Defined.

Lemma Insert_without_room_keeps_original_witness :
  slice_wf store123 slice123 ∧ 0 ≤ 1 ≤ len slice123
  ∧ len slice123 = cap slice123 ∧ len slice123 < max_int
  ∧ ∃ st' r,
      Insert slice123 9 1 store123 = (Ok r, st')
      ∧ arr r = length store123
      ∧ contents st' slice123 = contents store123 slice123.
Proof.
  assert (0 ≤ 1 ≤ len slice123) as Hindex by (cbn; lia).
  assert (len slice123 = cap slice123) as Hfull by reflexivity.
  assert (len slice123 < max_int) as Hmax by (unfold max_int; cbn; lia).
  split; [exact slice123_wf|]. split; [exact Hindex|].
  split; [exact Hfull|]. split; [exact Hmax|].
  apply (Insert_without_room_keeps_original slice123 9 1 store123
           slice123_wf Hindex Hfull Hmax).
Defined.

Lemma Insert_Delete_restores_witness :
  slice_wf store123 slice123 ∧ 0 ≤ 1 < len slice123
  ∧ contents store123 slice123 !! Z.to_nat 1 = Some 2
  ∧ ∃ st' r,
      (deleted ← Delete slice123 1; Insert deleted 2 1) store123 = (Ok r, st')
      ∧ contents st' r = contents store123 slice123.
Proof.
  assert (0 ≤ 1 < len slice123) as Hindex by (cbn; lia).
  assert (contents store123 slice123 !! Z.to_nat 1 = Some 2) as Hx
    by reflexivity.
  split; [exact slice123_wf|]. split; [exact Hindex|]. split; [exact Hx|].
  apply (Insert_Delete_restores slice123 1 2 store123 slice123_wf Hindex Hx).
Defined.

Lemma Push_keeps_caller_stack_witness :
  slice_wf store12 stack12 ∧ len stack12 < max_int
  ∧ ∃ st', Push stack12 3 store12 = (Ok tt, st')
           ∧ contents st' stack12 = contents store12 stack12.
Proof.
  assert (len stack12 < max_int) as Hmax by (unfold max_int; cbn; lia).
  split; [exact stack12_wf|]. split; [exact Hmax|].
  apply (Push_keeps_caller_stack stack12 3 store12 stack12_wf Hmax).
Defined.

Lemma Unshift_keeps_caller_stack_witness :
  slice_wf store12 stack12 ∧ len stack12 < max_int
  ∧ ∃ st', Unshift stack12 0 store12 = (Ok tt, st')
           ∧ contents st' stack12 = contents store12 stack12.
Proof.
  assert (len stack12 < max_int) as Hmax by (unfold max_int; cbn; lia).
  split; [exact stack12_wf|]. split; [exact Hmax|].
  apply (Unshift_keeps_caller_stack stack12 0 store12 stack12_wf Hmax).
Defined.

Lemma Pop_returns_last_and_keeps_it_witness :
  slice_wf store12 stack12 ∧ 0 < len stack12
  ∧ ∃ v, Pop stack12 store12 = (Ok v, store12)
         ∧ last (contents store12 stack12) = Some v
         ∧ (Pop stack12;; Pop stack12) store12 = (Ok v, store12).
Proof.
  assert (0 < len stack12) as Hpos by (cbn; lia).
  split; [exact stack12_wf|]. split; [exact Hpos|].
  apply (Pop_returns_last_and_keeps_it stack12 store12 stack12_wf Hpos).
Defined.

Lemma Shift_keeps_caller_stack_witness :
  slice_wf store12 stack12 ∧ 0 < len stack12
  ∧ ∃ v, Shift stack12 store12 = (Ok v, store12)
         ∧ head (contents store12 stack12) = Some v.
Proof.
  assert (0 < len stack12) as Hpos by (cbn; lia).
  split; [exact stack12_wf|]. split; [exact Hpos|].
  apply (Shift_keeps_caller_stack stack12 store12 stack12_wf Hpos).
Defined.

Lemma Push_with_room_writes_behind_witness :
  slice_wf store123_spare slice123_spare
  ∧ len slice123_spare < cap slice123_spare
  ∧ ∃ st',
      Push slice123_spare 7 store123_spare = (Ok tt, st')
      ∧ contents st' slice123_spare = contents store123_spare slice123_spare
      ∧ contents st' (SliceHeader (arr slice123_spare) (off slice123_spare)
                        (len slice123_spare + 1) (cap slice123_spare))
        = contents store123_spare slice123_spare ++ [7].
Proof.
  assert (len slice123_spare < cap slice123_spare) as Hroom by (cbn; lia).
  split; [exact slice123_spare_wf|]. split; [exact Hroom|].
  apply (Push_with_room_writes_behind slice123_spare 7 store123_spare
           slice123_spare_wf Hroom).
Defined.

Lemma Push_then_Pop_returns_old_last_witness :
  slice_wf store12 stack12 ∧ 0 < len stack12 ∧ len stack12 < max_int
  ∧ ∃ st' v,
      (Push stack12 3;; Pop stack12) store12 = (Ok v, st')
      ∧ last (contents store12 stack12) = Some v.
Proof.
  assert (0 < len stack12) as Hpos by (cbn; lia).
  assert (len stack12 < max_int) as Hmax by (unfold max_int; cbn; lia).
  split; [exact stack12_wf|]. split; [exact Hpos|]. split; [exact Hmax|].
  apply (Push_then_Pop_returns_old_last stack12 3 store12 stack12_wf
           Hpos Hmax).
Defined.

Lemma grid3x4_rectangular : rectangular grid3x4.
Proof.
  intros r Hr. unfold grid3x4 in Hr.
  repeat (apply elem_of_cons in Hr as [->|Hr]; [reflexivity|]).
  by apply elem_of_nil in Hr.
Defined.

Lemma InBounds_cell_exists_witness :
  rectangular grid3x4
  ∧ GridUtils.InBounds grid3x4 (at_xy 3 2) = Ok true
  ∧ ∃ r v, grid3x4 !! Z.to_nat (GridUtils.y (at_xy 3 2)) = Some r
           ∧ r !! Z.to_nat (GridUtils.x (at_xy 3 2)) = Some v.
Proof.
  assert (GridUtils.InBounds grid3x4 (at_xy 3 2) = Ok true) as Hin
    by reflexivity.
  split; [exact grid3x4_rectangular|]. split; [exact Hin|].
  apply (InBounds_cell_exists grid3x4 (at_xy 3 2) grid3x4_rectangular Hin).
Defined.

Lemma represents_shape_ABC :
  represents heap_RABC (firstChild node_R) shape_ABC.
Proof.
  exists 1%nat, node_A. split_and!; [reflexivity..| |].
  - exists 3%nat, node_C. by split_and!.
  - exists 2%nat, node_B. by split_and!.
Defined.


Lemma GetNodes_self_link_never_returns_witness :
  heap_loop !! 1%nat = Some node_L
  ∧ (nextSibling node_L = Some 1%nat ∨ firstChild node_L = Some 1%nat)
  ∧ GetNodes 5 heap_loop node_L = None.
Proof.
  assert (heap_loop !! 1%nat = Some node_L) as Hp by reflexivity.
  assert (nextSibling node_L = Some 1%nat ∨ firstChild node_L = Some 1%nat)
    as Hself by (left; reflexivity).
  split; [exact Hp|]. split; [exact Hself|].
  apply (GetNodes_self_link_never_returns heap_loop node_L 1 5 Hp Hself).
Defined.
